(** * secp256k1 arithmetic core: a shallow embedding of [src/secp256k1.py]

    Python integers are modelled as [Z]; [//] and [%] are [Z.div] and
    [Z.modulo] (both round towards minus infinity, the remainder taking the
    sign of the divisor, exactly as in Python).  Raised exceptions are
    explicit outcomes; the two [while] loops run on a fuel computed from
    their inputs, and the theorems show that the fuel is never exhausted on
    the inputs they speak about.

    The file has two parts: first every definition (the program, the
    specification-level notions, and the objects used by the proofs), then
    the theory: primality of the field modulus, correctness of the
    extended Euclidean loop, the group law of the curve over an abstract
    field, its instance at [Zmod P], the link between the program and
    that instance, and finally the claims of the specification. *)

From Stdlib Require Import ZArith Znumtheory Zpow_facts Lia List Bool String.
From Stdlib Require Import DecimalString Morphisms.
From Stdlib Require Import Ring_theory Field_theory Field NsatzTactic.
From Stdlib Require Import Zmod.
Import ListNotations.

#[local] Open Scope Z_scope.

(** * Part I: definitions *)

(** ** Outcomes of a call: a value, a raised exception, or a loop that did
    not finish within its fuel. *)

Inductive exn : Type :=
| ValueError (msg : string)
| AssertionError
| ZeroDivisionError.

Inductive outcome (A : Type) : Type :=
| Ok (a : A)
| Raise (e : exn)
| OutOfFuel.

Arguments Ok {A} a.
Arguments Raise {A} e.
Arguments OutOfFuel {A}.

Definition bind {A B : Type} (c : outcome A) (k : A -> outcome B) : outcome B :=
  match c with
  | Ok a => k a
  | Raise e => Raise e
  | OutOfFuel => OutOfFuel
  end.

Notation "x <- c ;; k" := (bind c (fun x => k))
  (at level 61, c at next level, right associativity).

(** ** Curve parameters *)

Definition P : Z := 0xFFFFFFFFFFFFFFFFFFFFFFFFFFFFFFFFFFFFFFFFFFFFFFFFFFFFFFFEFFFFFC2F.
Definition A : Z := 0.
Definition B : Z := 7.
Definition N : Z := 0xFFFFFFFFFFFFFFFFFFFFFFFFFFFFFFFEBAAEDCE6AF48A03BBFD25E8CD0364141.
Definition GX : Z := 0x79BE667EF9DCBBAC55A06295CE870B07029BFCDB2DCE28D959F2815B16F81798.
Definition GY : Z := 0x483ADA7726A3C4655DA4FBFC0E1108A8FD17B448A68554199C47D08FFB10D4B8.

(** ** Points: a dataclass with two optional integer fields *)

Record Point : Type := mkPoint { x : option Z; y : option Z }.

(** [str(int)], as the f-string of the constructor's error uses it.
    [decimal] gives the decimal digits, with a leading minus sign for a
    negative integer. *)
Definition decimal (z : Z) : string := NilZero.string_of_int (Z.to_int z).

(** The interpreter (CPython 3.11 and later, default settings) refuses to
    convert an integer of more than [sys.int_info.default_max_str_digits]
    decimal digits to a string, and raises [ValueError] instead. *)
Definition int_max_str_digits : Z := 4300.

Definition int_limit_msg : string :=
  "Exceeds the limit (4300 digits) for integer string conversion; use sys.set_int_max_str_digits() to increase the limit".

(** The least integer with more digits than that: [10 ^ 4300]. *)
Definition int_str_bound : Z := Eval vm_compute in 10 ^ int_max_str_digits.

Definition str_int (z : Z) : outcome string :=
  if int_str_bound <=? Z.abs z then Raise (ValueError int_limit_msg)
  else Ok (decimal z).

(** The f-string [f"Point ({self.x}, {self.y}) is not on the secp256k1
    curve"]: the fields are converted from left to right. *)
Definition not_on_curve_msg (px py : Z) : outcome string :=
  sx <- str_int px ;;
  sy <- str_int py ;;
  Ok ("Point (" ++ sx ++ ", " ++ sy ++ ") is not on the secp256k1 curve")%string.

Definition is_infinity (self : Point) : bool :=
  match x self, y self with
  | None, None => true
  | _, _ => false
  end.

Definition is_on_curve (self : Point) : outcome bool :=
  if is_infinity self then Ok true
  else
    match x self, y self with
    | Some sx, Some sy =>
        let left := (sy * sy) mod P in
        let right := (sx * sx * sx + B) mod P in
        Ok (left =? right)
    | _, _ => Raise AssertionError
    end.

(** [Point(x, y)]: the generated [__init__] stores the fields, then
    [__post_init__] validates. *)
Definition new_Point (px py : option Z) : outcome Point :=
  let self := mkPoint px py in
  if negb (is_infinity self) then
    on <- is_on_curve self ;;
    if negb on then
      match px, py with
      | Some vx, Some vy =>
          msg <- not_on_curve_msg vx vy ;; Raise (ValueError msg)
      | _, _ => Raise AssertionError
      end
    else Ok self
  else Ok self.

(** ** Modular inverse (extended Euclid) *)

Fixpoint mod_inverse_loop (fuel : nat) (old_r r old_s s : Z) : outcome Z :=
  if r =? 0 then Ok old_s
  else
    match fuel with
    | O => OutOfFuel
    | S fuel' =>
        let quotient := old_r / r in
        mod_inverse_loop fuel' r (old_r - quotient * r) s (old_s - quotient * s)
    end.

Definition mod_inverse_fuel (a m : Z) : nat :=
  S (S (Z.to_nat (Z.log2 (Z.abs a) + Z.log2 (Z.abs m)))).

Definition mod_inverse (a m : Z) : outcome Z :=
  if m =? 0 then Raise ZeroDivisionError
  else
    let a := if a <? 0 then (a mod m + m) mod m else a in
    old_s <- mod_inverse_loop (mod_inverse_fuel a m) a m 1 0 ;;
    Ok (old_s mod m).

(** ** Point addition *)

Definition point_add (p1 p2 : Point) : outcome Point :=
  if is_infinity p1 then new_Point (x p2) (y p2)
  else if is_infinity p2 then new_Point (x p1) (y p1)
  else
    match x p1, y p1, x p2, y p2 with
    | Some x1, Some y1, Some x2, Some y2 =>
        s <- (if x1 =? x2 then
                if y1 =? y2 then
                  i <- mod_inverse (2 * y1) P ;;
                  Ok (Some ((3 * x1 * x1 * i) mod P))
                else Ok None
              else
                i <- mod_inverse (x2 - x1) P ;;
                Ok (Some (((y2 - y1) * i) mod P))) ;;
        match s with
        | None => new_Point None None
        | Some s =>
            let x3 := (s * s - x1 - x2) mod P in
            let y3 := (s * (x1 - x3) - y1) mod P in
            new_Point (Some x3) (Some y3)
        end
    | _, _, _, _ => Raise AssertionError
    end.

(** ** Scalar multiplication (double-and-add) *)

Fixpoint point_multiply_loop (fuel : nat) (k : Z) (result addend : Point)
  : outcome Point :=
  if k =? 0 then Ok result
  else
    match fuel with
    | O => OutOfFuel
    | S fuel' =>
        result' <- (if Z.land k 1 =? 0 then Ok result
                    else point_add result addend) ;;
        addend' <- point_add addend addend ;;
        point_multiply_loop fuel' (Z.shiftr k 1) result' addend'
    end.

Definition point_multiply_fuel (k : Z) : nat := S (Z.to_nat (Z.log2 k)).

Definition point_multiply (k : Z) (point : Point) : outcome Point :=
  if k =? 0 then new_Point None None
  else if k =? 1 then new_Point (x point) (y point)
  else
    result <- new_Point None None ;;
    addend <- new_Point (x point) (y point) ;;
    point_multiply_loop (point_multiply_fuel k) k result addend.

(** The generator, and the points a caller can hold. *)
Definition G : Point := mkPoint (Some GX) (Some GY).
Definition infinity : Point := mkPoint None None.


(** ** Specification-level notions *)

(** The specification's reading of scalar multiplication: add [point] into
    an accumulator that starts at infinity, [k] times. *)
Fixpoint naive_multiply (k : nat) (point : Point) : outcome Point :=
  match k with
  | O => new_Point None None
  | S k' => acc <- naive_multiply k' point ;; point_add acc point
  end.

(** The message the constructor's error is meant to carry. *)
Definition not_on_curve_text (px py : Z) : string :=
  ("Point (" ++ decimal px ++ ", " ++ decimal py
     ++ ") is not on the secp256k1 curve")%string.

(** The exception of a failed validation: the conversion of a coordinate
    of more than 4300 digits fails before the message is built. *)
Definition not_on_curve_error (px py : Z) : exn :=
  if (int_str_bound <=? Z.abs px) || (int_str_bound <=? Z.abs py)
  then ValueError int_limit_msg
  else ValueError (not_on_curve_text px py).

(** The points a caller can hold: those the constructor accepts. *)
Definition valid (p : Point) : Prop := new_Point (x p) (y p) = Ok p.

(** Coordinates that are field elements in canonical form. *)
Definition reduced (p : Point) : Prop :=
  match x p, y p with
  | Some a, Some b => 0 <= a < P /\ 0 <= b < P
  | _, _ => True
  end.

(** ** Primality certificates

    Trial division for small numbers, Pocklington's criterion for large
    ones: [n] is prime as soon as distinct primes [qs] dividing [n - 1]
    have a product above the square root of [n] and a base [a] satisfies
    [a^(n-1) = 1] and [gcd (a^((n-1)/q) - 1) n = 1] for each of them. *)

Fixpoint no_divisor_upto (k : nat) (n : Z) : bool :=
  match k with
  | O => true
  | S k' => negb (n mod (Z.of_nat k' + 2) =? 0) && no_divisor_upto k' n
  end.

Definition trial_check (k : nat) (n : Z) : bool :=
  (1 <? n) && (n <? (Z.of_nat k + 2) * (Z.of_nat k + 2)) && no_divisor_upto k n.

Definition prod_list (l : list Z) : Z := fold_right Z.mul 1 l.

Fixpoint strictly_decreasing (l : list Z) : bool :=
  match l with
  | q :: ((q' :: _) as tl) => (q' <? q) && strictly_decreasing tl
  | _ => true
  end.

Definition pock_factor_ok (n a q : Z) : bool :=
  (1 <? q) && ((n - 1) mod q =? 0)
  && (Z.gcd (Zpow_mod a ((n - 1) / q) n - 1) n =? 1).

Definition pock_check (n a : Z) (qs : list Z) : bool :=
  (1 <? n) && (Zpow_mod a (n - 1) n =? 1)
  && forallb (pock_factor_ok n a) qs
  && strictly_decreasing qs
  && (n <? prod_list qs * prod_list qs).

(** ** The invariant of the extended Euclidean loop

    Both remainders are congruent to their coefficient times [a], and
    their gcd is the gcd of the inputs. *)
Definition euclid_inv (a m old_r r old_s s : Z) : Prop :=
  0 <= r /\ (m | old_r - old_s * a) /\ (m | r - s * a) /\
  Z.gcd old_r r = Z.gcd a m.

(** ** The curve [y^2 = x^3 + 7] over a field *)

Section CurveDefinitions.
Variable F : Type.
Variables (one : F) (add mul sub div : F -> F -> F) (opp : F -> F).
Variable Fdec : forall a b : F, {a = b} + {a <> b}.

(** Numerals of the field, written in binary like those of the ring solver. *)
Fixpoint of_pos (p : positive) : F :=
  match p with
  | xH => one
  | xO xH => add one one
  | xO p1 => mul (add one one) (of_pos p1)
  | xI xH => add one (add one one)
  | xI p1 => add one (mul (add one one) (of_pos p1))
  end.

Inductive pt : Type := Inf | Aff (ax ay : F).

Definition on (p : pt) : Prop :=
  match p with
  | Inf => True
  | Aff ax ay => mul ay ay = add (mul (mul ax ax) ax) (of_pos 7)
  end.

(** The group law, with the case analysis of [point_add]. *)
Definition padd (p q : pt) : pt :=
  match p, q with
  | Inf, _ => q
  | _, Inf => p
  | Aff x1 y1, Aff x2 y2 =>
      if Fdec x1 x2 then
        if Fdec y1 y2 then
          let s := div (mul (mul (of_pos 3) x1) x1) (mul (of_pos 2) y1) in
          let x3 := sub (sub (mul s s) x1) x2 in
          Aff x3 (sub (mul s (sub x1 x3)) y1)
        else Inf
      else
        let s := div (sub y2 y1) (sub x2 x1) in
        let x3 := sub (sub (mul s s) x1) x2 in
        Aff x3 (sub (mul s (sub x1 x3)) y1)
  end.

Definition pneg (p : pt) : pt :=
  match p with Inf => Inf | Aff ax ay => Aff ax (opp ay) end.

Fixpoint nmul (n : nat) (p : pt) : pt :=
  match n with
  | O => Inf
  | S n' => padd (nmul n' p) p
  end.

(** What [padd] computes on two finite points, without divisions. *)
Inductive padd_spec (x1 y1 x2 y2 : F) : pt -> Prop :=
| PS_dbl s i x3 y3 :
    x1 = x2 -> y1 = y2 -> mul (mul (of_pos 2) y1) i = one ->
    s = mul (mul (mul (of_pos 3) x1) x1) i ->
    x3 = sub (sub (mul s s) x1) x2 -> y3 = sub (mul s (sub x1 x3)) y1 ->
    padd_spec x1 y1 x2 y2 (Aff x3 y3)
| PS_opp i : x1 = x2 -> mul (sub y2 y1) i = one -> padd_spec x1 y1 x2 y2 Inf
| PS_add s i x3 y3 :
    mul (sub x2 x1) i = one -> s = mul (sub y2 y1) i ->
    x3 = sub (sub (mul s s) x1) x2 -> y3 = sub (mul s (sub x1 x3)) y1 ->
    padd_spec x1 y1 x2 y2 (Aff x3 y3).
End CurveDefinitions.

Arguments Inf {F}.
Arguments Aff {F} ax ay.

(** ** The field of the curve, and the program's points as field points *)

Abbreviation Fp := (Zmod P).

Definition Fp_dec (a b : Fp) : {a = b} + {a <> b} :=
  match Z.eq_dec (Zmod.to_Z a) (Zmod.to_Z b) with
  | left E => left (Zmod.to_Z_inj P a b E)
  | right E => right (fun Hab : a = b => E (f_equal Zmod.to_Z Hab))
  end.

Definition fof (z : Z) : Fp := Zmod.of_Z P z.
Definition fnum (p : positive) : Fp := of_pos Fp Zmod.one Zmod.add Zmod.mul p.
Definition fon (q : pt Fp) : Prop := on Fp Zmod.one Zmod.add Zmod.mul q.
Definition fadd (p q : pt Fp) : pt Fp :=
  padd Fp Zmod.one Zmod.add Zmod.mul Zmod.sub Zmod.mdiv Fp_dec p q.
Definition fmul (n : nat) (p : pt Fp) : pt Fp :=
  nmul Fp Zmod.one Zmod.add Zmod.mul Zmod.sub Zmod.mdiv Fp_dec n p.
Definition fneg (p : pt Fp) : pt Fp := pneg Fp Zmod.opp p.

Definition to_pt (p : Point) : pt Fp :=
  match x p, y p with
  | Some a, Some b => Aff (fof a) (fof b)
  | _, _ => Inf
  end.

Definition of_pt (q : pt Fp) : Point :=
  match q with
  | Inf => infinity
  | Aff a b => mkPoint (Some (Zmod.to_Z a)) (Some (Zmod.to_Z b))
  end.

(** ** Observers and concrete points used by the examples *)

Definition returned {A : Type} (c : outcome A) : bool :=
  match c with Ok _ => true | _ => false end.

Definition value_or {A : Type} (d : A) (c : outcome A) : A :=
  match c with Ok a => a | _ => d end.

(** The generator with [x] shifted by the modulus, with [y] shifted by the
    modulus, and its opposite with [x] shifted: all three pass the
    constructor, and none has both coordinates in [[0, P)]. *)
Definition G_xshift : Point := mkPoint (Some (GX + P)) (Some GY).
Definition G_yshift : Point := mkPoint (Some GX) (Some (GY + P)).
Definition G_opp_xshift : Point := mkPoint (Some (GX + P)) (Some (P - GY)).

(** [2G] and [4G], computed by the program. *)
Definition G2 : Point := Eval vm_compute in value_or infinity (point_add G G).
Definition G4 : Point := Eval vm_compute in value_or infinity (point_add G2 G2).

(** An integer of 4301 decimal digits. *)
Definition huge_abscissa : Z := 2 ^ 14285.
(** ** Certified scalar multiplication

    A long scalar multiplication is replayed with the slope of every
    addition and doubling supplied from a list: each slope is checked by
    one multiplication instead of being computed by an inversion.  Points
    are pairs of integers, [None] standing for the point at infinity. *)

Definition cert_double (A : Z * Z) (s : Z) : option (Z * Z) :=
  let '(xa, ya) := A in
  if (s * (2 * ya) - 3 * xa * xa) mod P =? 0 then
    let x3 := (s * s - xa - xa) mod P in
    Some (x3, (s * (xa - x3) - ya) mod P)
  else None.

Definition cert_add (R A : Z * Z) (s : Z) : option (Z * Z) :=
  let '(xr, yr) := R in
  let '(xa, ya) := A in
  if (s * (xa - xr) - (ya - yr)) mod P =? 0 then
    let x3 := (s * s - xr - xa) mod P in
    Some (x3, (s * (xr - x3) - yr) mod P)
  else None.

(** Add [A] into the accumulator [R]; a slope is consumed only when both
    are finite with different abscissas. *)
Definition cert_sum (R : option (Z * Z)) (A : Z * Z) (cert : list Z)
  : option (option (Z * Z) * list Z) :=
  match R with
  | None => Some (Some A, cert)
  | Some r =>
      if (fst A - fst r) mod P =? 0 then
        if (snd r + snd A) mod P =? 0 then Some (None, cert) else None
      else
        match cert with
        | s :: rest =>
            match cert_add r A s with
            | Some c => Some (Some c, rest)
            | None => None
            end
        | nil => None
        end
  end.

Fixpoint cert_mul (k : positive) (R : option (Z * Z)) (A : Z * Z)
  (cert : list Z) : option (option (Z * Z)) :=
  match k with
  | xH => option_map fst (cert_sum R A cert)
  | xO k' =>
      match cert with
      | s :: rest =>
          match cert_double A s with
          | Some A2 => cert_mul k' R A2 rest
          | None => None
          end
      | nil => None
      end
  | xI k' =>
      match cert_sum R A cert with
      | Some (R', s :: rest) =>
          match cert_double A s with
          | Some A2 => cert_mul k' R' A2 rest
          | None => None
          end
      | _ => None
      end
  end.

Definition emb (q : option (Z * Z)) : pt Fp :=
  match q with
  | None => Inf
  | Some (a, b) => Aff (fof a) (fof b)
  end.

(** The slopes met by double-and-add on [N] and [G]. *)
Definition order_certificate : list Z := [
  0xcb35b28428101a303eb9d1235992ac63f58857c2f631ee6936d3aebbeddcd1b1;
  0x6ad2cb95963c033328d4857d4f8711deff557dd9faaa673b400442833f0efb64;
  0x9693023fb325cc6c7bc993eb684358ea623d5feea8ff351df662beabd0efdc6d;
  0xbc380350880ab969e653d334691ca8c2da83b2acde59e7439ed92d96a9654a07;
  0xb68c9cb56c4f0fd3279f2dec6acae3ffbacfb8384548d24892d676cd6beacbf5;
  0x57aaae4151a198790e40eb37fe0dad5ed4d4581b1a82c40124b58ac767ed1ec4;
  0x4f51e7f40598f0055487614fccc230afd92371c4b8a603aae25cedc411d89e0e;
  0x875978642d00b859133774fec1878f9e7623f6df9c734f7ed297e920a77b4406;
  0xf0d3817330010db820c7710c8ee17a157984f4bfd3bafbd4a49079efd7754990;
  0xf7e66214a35ae7bec27b1ecd5c0de5ff1dce682f0f4e6588e11d6ec7feb9a5c5;
  0xed7816fe6ca3e42058b150c9eeac31ef8a6bda7ee9e51a0ec33e09f96afc74bc;
  0x62f219d148d24eff34fe56735390098e29b6a2190daa3dc0fbd1d33b92531a49;
  0xda8eabc70379e66ae8e505f49deb2e1b4906022def4c45ec320e33aed7091903;
  0x6c49014b33417076abaadc7958f95908e93dd2886468bd7d27d61cef7c1fdfdd;
  0xca43b3ab114e7c697fee873576d7b89f909e0592f9e805e00246c31200fb967b;
  0x1b5d9cdfbd96d7eaf397653b120ed6cb0f4bd05bf004f79c2a9fd0bcdf4929bc;
  0xe0cb18a3edbcd600a286c6b603e220d63bed148bfd0c00e3027d30018ec79731;
  0x06fedf4339b46436d0db4e1864076fe618c51a754e1c0ed5708b889c5733613e;
  0xa377ffff0b36d0535197bead9992fee7698334fa5bfc270f64d511cc9ab7c03a;
  0x0be610814de113647213fff8fc6378b31333e2bac4ac437ff9a702a6734563c9;
  0xa7d3054d6fe27dc5559c75f6bb2231a9d54f988d170234ebfd42174c1a3f32e0;
  0x92ebb512788e5c3c7a3baf1feaf8281104d50976aef98bbac62a97be2d8b7a7b;
  0x5a5632e902f6c58ded7ffe4a60dd0278e397627c2a31c8afa3a7ac625064cd03;
  0x9b0f855eb9be64f095aa255167f0f0baf01b2cd3cc72ef8f1444747071666278;
  0xc95c70effee378ee51d4695a7e30804db90a8fdfcca618c180cec3ec5c83b500;
  0x179ae0dc9d03a8028156678f64d8c80fb3a3ec33f145a5b507c6c6c02a8e71c8;
  0xec7e64a924b93bbe0b71cb15729ff63848d6104ae7d55a16ed4a41d45b8fe684;
  0x0a6a78cd866f50652c8426bad78453057fd429d93c659d5138c0bc7357a94f22;
  0x4a97f998b50e69d9b7f9c654687b8490e7f4a168b22ee05f0491f67c5bcae6b4;
  0xc0b764bf04ae63359beb2b4fc6f722f47da0482483379a58ca50aff8c2ea4869;
  0xb9f84addcab19fb53a62e79564f6075b848477821df6d6c58668d8e9b2501575;
  0xc985b179caa5bee0ef6acefc42c0dec227b196c5dbd0953cc43c5868392e7cd3;
  0xa6d04e5b19577537db75701165cc1aa476cbdc92cb167d90af93b785d698742e;
  0x4479d94c2f98166b4c1d24655334f9bab459cb5a6c074f1e9bb5b9ea97b6a18b;
  0xbe5aafdeb2f0b1599d1b413e816d0ae93363953c3d97e4fd3afed1c367f9596d;
  0x7e1cc6e0806734816850b5f010d056e9b5b14f4630c1a6cb79a98c3660d3aa6d;
  0xa6a6f72a0273aa6f7b6276e647117f1c0e9f5561a551c6238ec167ba7ac03635;
  0x8dee3efccec9fbd528bcbdfc380d106f09ab41277d36c65ed6c4dc4784ea857a;
  0x814d489910767dcde9878f169e7b250e5f59e8be1a15df7f8c1dee23adffb968;
  0xdb3e8ec5d990ec59421e6569d96dcdaecb7f725432c5a4ddb78439afbfe5554f;
  0x2ba83e31e20e6c6f464a26d2eaa4f799f06dd1c218946f49a69880bc5b4abc4c;
  0x0f18fad968cb987adc7d7c35fc6ad8974a3fcf82a55e9400e7bf3015e6b558a5;
  0x82cd82212ae9dbf4101c8671a40de941c0bc39b23359c41063b171fe4cbf7c6a;
  0xc5ab93dae7b4d1d3c5edfe8bc49fa6ba5566b166494b830b6cf082231fe99f39;
  0x4a9531cbc7fcb555627173f519a031a2187c66e581cecb04909d994c2e3b53e6;
  0xde12036f73e80356f7db91954e2ca46c56dcab93ec4efda7fa9e72b8b3a2b20a;
  0xc80f4833784b6a077df723e24fe535a67b40f01ee9e3dd59da9d65e8f82d9f2e;
  0xeaaf7c28dae8dfa52783d0b7ef5ebc91aa999f58db631588e00a05856dbef4cd;
  0x27923dd35874b9d0c3e1b1930352c0c3b0d91412f38fa8c1341f5a73beb4f8b9;
  0xd8880a7ae61955a53b91ef1d5de7f4b9646afd475edbbc8974911329e12fbdcd;
  0x8676b3eae525414b100a173e847e521f75a5c46ae628b3858b1c1fbcbc59daf7;
  0xf8ad5290eaab42f191602466cfe19d6a8bdd2b5a788a8cb2c2eba34fd22847be;
  0xf53ade417a0d913b3b9e411781e6e8de0ff1a6b169ca912fe5495f51c90530d8;
  0x32f78aa8da44cbc85c1d785fb24f0e7f0da8ec5386523d436bb3a50d1e52fb8c;
  0x3086d220f31a0f4704f6874663e61a85b7baf3f27deeccb9c19ee6024d7c968f;
  0x2c5edb78f874848d89ceb49fa59a1ff38ba3a6605f567ca67bb74a6e78c097d7;
  0xa824e3d624bd7aee30ad3fe846d969dad308c31c20d25cfd14d86a39aa928162;
  0xdebcd686b581f6645f94a93467d0ecdf9e4ad7edeedcfeed57d9d6364c78d427;
  0x554516c7913f5284122e296af363f848e12d34d3fbfc90e94cedf9ce63e62aba;
  0x81751b61f3b4ad7169d8ac62378adc14043339e3a60078fa2bf394c804c26e20;
  0xa497ec081a5b43f307fe6b2ed7f51a2ed7042704318aad555da4795a4ae36810;
  0xea6ec05c50822815af2653e43c1adabb3be24e602591c72373d731cc1a44a051;
  0xe60635d4ed2d254e05003b55d58bd309cce50b703f8dbf6d4700a65d85559a25;
  0x4e9ae5800380f7cefcac474de3a049e12e1b0f0312740facb4144528ddd6e597;
  0x7471bc58c865f770a22bcb1e2465507731b3ad17d19c55c851a736531fefafae;
  0xc84b8bb00e0f4407e49fe1be00895dca6d817c8ce64cfebb5d67625411bde644;
  0xdfada4b2106cac4951ec538f3d828576d57426ebe0d870d5e091e5b044aa5639;
  0x9da339403188b608778cda205fcfeb0adce46dffa1dd103c3271ca529b43a7c8;
  0x51ee9a34eead0ad899a54439d004a42a2f3fa11be3c4773c1dc6457062e3572b;
  0x602c9992d00cc6030985312c38033bca60ce74f3a25777862a7288488389cdc1;
  0x2caed624594a3483ad98859bef75a97ed7cc509bd906bb2b23fbf9fbe4e5004f;
  0x3ba37ea85760c97215dced4f7d5d63cfa8df6d46b9c81063261e3c8e76399130;
  0xff486a88ac95151d852a5270924d4ccf1fff7b676398e499d324893a4bbb576c;
  0x8309b9cd7caf364f8a4726b848e574837a1498176583cd38a99bbf35c27c0e01;
  0x964b583a76ed003af67324d770a980a02bf6fd9d82ed81cdf325ae1b036bacd6;
  0xc3a088da9a740fbef9a36dc94890489302dbf3a200c6aad18428714f41d62ef0;
  0x52d4e5874c2b1e6d24626f661bd5964c6dc6495b659a1fbf54aa0b9e64734e42;
  0x9a1bb41d1a00d1b60cc94b47fe3b071dd38189836c875b949a5bb1b3744d5622;
  0x8747c3e1175273bacb28dff9b123d030301368c3639952cdc0710f651cd21689;
  0x738fd7bbbe9afd0e286fa67c1b3d9d1d4306cf1d91327714eb87d7e6678bcdb6;
  0x25853627ab9e4428bbc2b26df39a28f315236b3bde7ebd82ef5edf0a3883378d;
  0x245df8c5a6ad254b4c4c56c0d969cacd2ea321b08b1ed4d55515f34d582f7420;
  0x38721d17954c3f8dfe37959da83d2772b07ab116c026c8bd9fe91cbd1553f8f9;
  0xb51b78655a4e5a25c8c18dd20190b5571b736e586729fe907b550841e1b6724f;
  0x4e49c808ad68250f9b3e17cd4afaa353e93f3346cd396b963a96d80fcd568ea1;
  0x2e95bd430cb40948c3e3069bb698efdada1d87ac3d902f2d55129e9cbdb660d4;
  0xbb67f3e7e496460578b64f06a38d43e72d6d99fd238fb168cef14484e8bb41ab;
  0x61ff0b09e723c8829eb256b349701c992867da5babb9246b4e80f4a06a7739aa;
  0xa168102f9efde9e2c818a175b0e594b0d2c12fe65d53c553ee4bb7cfa6d47ed9;
  0x3172c36f49857e7e10d1b5927bf54091d80521d6b2eb92a8998b92cbb2234de1;
  0xc3c8b71e8454afd4fe4ae23209d6947bbfdb44f29f3474cbf6e1de6bfd9974ad;
  0xdb1515f8b04a8b7ea74d3268f5d117db952ef047ae41c0e40d0a53ab7302311b;
  0xc781a37bd88a0baa945a25dcbec891a96eab33936f3ae33b924c4ebb9ccc91e1;
  0x8e692c28c208ff37db20f820ad5f2b68061bfadf7707ba2a4af134bb46dc5e05;
  0x5e1c71fb55e898f6e64912dece2b8a3d031f1eaee2af6f37ebd48ca94c1a3624;
  0xcc5be2bb1875023a9046aceb919a137f79dd3babb398de17f6523da10c1082c5;
  0x5adeba52ee6ac0e141ffb884efa7a7d9a940b9950373647c8aaef60dd14e763c;
  0x0a478dd7bfcb0fe45115c6952feba38f9de0842736b164666c083b48c9ac6cb1;
  0x5e3ac5e451772fe60e7fb8e3a7e0e93c1d11e9df9e2d5365ea3b2d287a0aa4a6;
  0x104f2aa37e05be6add58d281a2334816593555f014ce643f702814ec1391f5a4;
  0xabed522f3e193c67f73d321de6802349a92bbb5984c611c5b99d2149f1de2e18;
  0xad98ae499f8b968dacfaf69097db01061deecdd4b8b7fe434720aaf6131a6fc1;
  0x4f81a978aadd715c8c18b34d3659c47f54e5750aa6dc05ffd4d6825fd0b851f4;
  0x0e3b8c91ddd9155986dea06e85caade56b09b179572444c1c2007fd77d04d6f0;
  0x6d5074103e91fdcfa4597e9b5c32b822c19b5af92207eb477c72ec4f9dcccb6b;
  0x0b0486abb58d31b2dc9704b8502170a38dc4139987db4802a1661a40d857824d;
  0xe6d9fa3e6518d4e9723dea425cf89cf627c6b2258bb185785b0f3d91b04e6115;
  0xd884b65bd5b8dfcbdda21a681b317b0bcbf4d101debc21a38ca7300520334d4c;
  0x9d1540c9467d3bf99ee5b77f3c9121f1a88e1886ce5c64aa196b85cf6815554e;
  0x00c48405b3038c03bd744a8ed8a5527cb83e8f1929b392d0a6967cbd721bae0b;
  0xf9bd4b25fb8787ac97edb42b9bac8deb9ff7ef01b41f5d6575086f1012bf96ce;
  0x3e9a6f8aa99d1c95adaf191933c307be07f11e5ced10870e59df6f75cb5b22a9;
  0x95b144bd0405b76f012f298ce4bf1355bccb8671d21cdb26d904bbbeb3860cda;
  0xcd97a7266946a362a966c2469bb3e45413110726a2c395c2bea221545461dbef;
  0x01015a1ff5cceabdbb18b3bcab3e1e165565936df0a2e61c3ab9963575ffcfe0;
  0xe53ce2c798d39bef6ff55175192d6b703f4df8f610db8e47bda11627318a4605;
  0x18b9cd189f45726e2c6dfdc2cce38866bc945ec92113621bfaa817ce723adf9e;
  0xbcba2313f29e1d97551bf61072f2a6f583d17ef9378ac65a6a5a28639887beb1;
  0xccb0c2d5a765fae0fa90950f0ed92a38ad56207a00bd4f3ea9da4b31dfc25815;
  0x84c317b78952e8ca720dd89f1026a6d7e62c6ecc7df56058a251b46174cca20c;
  0xdfedec6f42f70b127c80c91fa38ee129550274bde0c96a7286b93a0f6c39dfc0;
  0x24076fdb1fa11f74017e5c3696347308e32b3f0e740977d9c044061b43cc1ca4;
  0x38894d85c2951105037a5d11369af6d039f62d660aef1e5b13689d8a8da7b17a;
  0x63ad0385d2e58ba85346be11e60b918beb00ea22cb7a1d097fdb7c77c9d3e881;
  0x43e3186271177bc3437dffd0f295e9a9b2a7a173698f8c15f747e07c7e8ff275;
  0xb52c04d03ee5d1a4b1d4065d2e74ed960cb2de26a95aa21abbc0df208ef24801;
  0xa8aeb05a99b306c78cca5973cd3d3d095f9d4ef3d74d62f6f7cf9b876f335bb7;
  0xa25099814b5320e1032c789b522196ca8e997d9c4c7caf884c79019ad46985e4;
  0xfa07d0a101f7374a2f8bb1d504633bf0ff067500b5d1ce037c8bd50738e3191f;
  0x722376042ae0f9d2ab08571a325abc3a4436037b5b82183ef03f4c040825c566;
  0x2a8a59b09062121c1a279dd54cda676130095d894b4a213e6a3bcd23144e5fb7;
  0xa108d01af8d3416aa2f0e358342876e2ba7343cd700f6c28a824e467637a1221;
  0x94d38f0c5a11a05e330e52faba3cc35968183fa7b1062fa8bdf7919209e27653;
  0xaa93ae9daa82037fbb9b9ac8d39248dd36602f49c2588d2617debf0c252844b5;
  0x1636e902f0379b679aafde9343d791a7ab89d449ce8432e3b716d55e3470094f;
  0x2a23e22eae156ceda5423b8f4a5a90bd3806552386026b532a7ce892eae9b4a3;
  0x61d87a0cfe2e33fd3d7b20932d6ec316534b451b05017d55ebf66df97c650703;
  0x24454cfd40d319c9fe377ebae48788ea6718ae1dc023e42f98c46838dfdb2715;
  0x36a2ec1244e6a5857c2d6f3ef99ba6795d8e5075cedf7b513a8e3e8543988676;
  0x717534901dbb59ab006854c068a50dfdd20232fe591a31fbd7dda12262862069;
  0x41c5c1a77b62baa51b180e1dcbff6780ece0a093f5a78051c6de090fab67d58b;
  0xede9085caf36674cf9c26eb146cff2eaf78cd9c36ec9e11da8e7ff616a065d06;
  0xcc008c577437b3b458c9b836494bb2bc62d6e64da3f0842ef710401e85163577;
  0x21e3ddce9de38cc20e68c9dd3366e87516ef74cb537674bef9c2e6717945588f;
  0x9294b9f9f80b87f9d51ea42cdc54616c6c8cacf9b6a14ad9e9bee370d90df338;
  0x27b376e30f76ec47e5e68b16c3a2cf484262baa820f9d61937a65d963ba0a28f;
  0xf1bf5eae2a0c4c9ef23bb69797a3827927656b3d5c2e1dc0e927cc43f0db11ba;
  0xdcedbe88041c1959fb8494522e2e991a09293d7a9be661cc7a5db90be2837187;
  0x546acca7e813b1998650b06326ef6544d2d72aa88a3413c45c35c5c3ba5cef5e;
  0xcba49b4f56db9d6f1c37c946f26e932e0ab4e3fa2588a9ddf575c4b7a715ec76;
  0x631098678fdb228e7be3f87f83e86efe5e8cb7d78b2be931475be0b75e618be4;
  0x23de7fc74b52c6fa7f6f3ffe5df6d1e297553f0edbf7bf7ae0044fc7821ccd56;
  0x792c04e8f7afd1b9a401fb8523f74d5c81c76302b10a6726b0a0b54d60e62eac;
  0x0a12d5e05dff013873b8147dae62e9e6caf91901e3e357c1cec3858f69f0d4b2;
  0x2a2f3623eafc2706805279368e2b1c5c2afa8d5e85e53d5ba7e9d48345cf88f4;
  0xf45fa648c07117cc5c1d8abb6593a89cc0cbfcf9f4aa4234fc366c9641d9cd0f;
  0x292696c573b74a6cd56a72bbb1bcc0d621fb2ff611aec55bd728a03258fa9ac4;
  0x35ce7a32cf0d50311858607db31567d10333d96cc5249a1bf3fec51fbbb3a885;
  0xaa59b2dd302ea6d3ebf0bd86b52a675096448eaee3e2c37f59fe73a32ea2452c;
  0xe78be406923481e3ff87ba14fb72149d99b643ca33d787301f546d9318cab68b;
  0x9824e79ee39825411d7bf6454d5ed23a6453d1b81b9b3a889361ae2bb1a01db9;
  0x1410252b4cd150f805430da05be0fa84af1a95f3bda9041d49b5dac99bde7dbc;
  0xc100fbd242a0cc1671a85f4835f82866074601c469f6a320390ef4d1bd031873;
  0xd835dfd81665457b77de5400f8e630b0f3fee3384b8a278f65ff35efbac3549d;
  0x26c98c0ebd6e011beb99e8e0c3063436faca64342fbabd098b26aa7dd1e315f8;
  0x031acb4e1b1cf7975d68309d78e4079a67ff7ca16b70a141bca36aa1e38f7816;
  0x9e134159fa7f342a7059c56115bfcbe4aee40bb38561a32f7d1cd882eb497297;
  0x4060d419967b3a342e3cff852b8979201b31d90d0443d55dd52b3234196abcf4;
  0xf7f95ba71f70ffae38b8afe471517eb23276f67bb7e8587cbcc1c8f03fdd8edc;
  0x68c614f8f98f4b0b6fad3d70c183b2dfa38d25a41c5562ffa4d062b997fdb878;
  0x775399578055e555c62520e02bf03e8454a29230887ca4369e4c87b9bb0ba8cd;
  0x8972303d7135726ca6f43a6cc68a7bb8a467bef3602641469ff0a6ca401d6697;
  0x500a08279b3c953b7ea4c442af79ee4fc12bb93017e4727816b4374fcac245db;
  0x759f42169706492f4d893748465b0b891cf451657415eb8bad19754d88799bb8;
  0xc5c36ae807049797eb6590a16d737389332a9d146b85f795b55218e1752562e2;
  0x9b2f8851451a0c4a32b655df99f323889b9f437a5ac499423c383f787a29e43e;
  0xfd694f82ce17714f7e6a833cfa028cf5206ab4c04bab17679f65e28f90487e1d;
  0xe2262c8c4d6fa135e4a080d491501c25c8942964e7f3e2d8c124727895991705;
  0x6d66f1633c0ea4e3be369e04bdcfc73efac3f92d72320932c55fd0197c48e44a;
  0x60fb0dd8cfb159a6cc7a0b308761f2bb17857246959617835ef54989090a211d;
  0xd75735170d18da270cda1d77479f7ab209feab69a3007cf996a1a4494e68c6c7;
  0x50018607e3d60e50bc5e7dd6ea0060dab9e5478b964170294f64677ef6f5adfd;
  0xcae60ba240a4434e4187587e5c8846b5fb61cb5eed6df31ef65e69275e8298dd;
  0x2b181dd32fa2d15489f02b79c6f93177c9a3c98585f482788c311520305e1099;
  0x27fec578a9edadb2aa5328699c0a3cccb201d9e4c4c46c036041f20898797576;
  0xb0b26787824e620c0984379590331bcff3e3c0aec23b4e3cedb03856d7ab8143;
  0xd4f0db18fed8a66a083b386445c250011b57923062480f793ccb65d82d6f2d6b;
  0x2dfe775849e679022317e53a4db204d86081d0c5ce38e978be54cdb0e3f5df8d;
  0x58ff873b75fe48d0de02ba7960e477f2b009a1fad79a0c13db1f838a68704f33;
  0x4a448861c49b177bf3d75a72ffbe403636a0189476ffa033360c12be26583b58;
  0xb654363c42e14de3b526e0aa278589c2f8f589877d9e307b4d51d713064c4db8;
  0x857ad2cd6b2921bd076754555a30fbaa46c691e4d20c90d6ea86468cd38da973;
  0xcfc72646669a22e13c4fa2f56147ca7fd7babf662697196e4fab511935abdd53;
  0xbbf135af4a0a58e9ce1bccc2426cb37afea826ff889909bcc6284a540a621dbc;
  0x8adbeb828d3955fd13580b649ec0d51cd200054e8894fa357bb6dd39dd142198;
  0x60d0a4af293009d0a5e715eb54aa01c379928804e3ddb48575a8a70b7d2d251a;
  0x8fd62364fc6918a7b6ad07b7300fbb01b94e5f0fc41d37bcc1f45a015cdc44a6;
  0xf853e4a72d150c6d63a772e751734ea9a3f7584cbf7f22630755cc14b3d291ce;
  0xd9a2254eb1165724d49b7f402b59327424e10d29788a1a1b00e957605bca3d62;
  0xd218e653fcaa1e2c8c7dc48eba09bf9e10ce06b8382f1000e4f5fe58c42c895a;
  0xe838298a11c6053304d86bdaf61c5c8d69f0d9a71cdac755d0eef49f886c88a5;
  0x913cc2e5b9196d90427739b1237be78e4ed15fb1641ea0e2c82068589ac08f8d;
  0xc32552ee2210231698d000b389e2f9bb93532e3f3c0dc62634ad9f14b80b3a81;
  0x058c50dc67dd825c973338f90e2343a9f1c782fab5922a665bddc473e8743cd9;
  0x5b992fd2d78850b42b957a04c4217803e73a2f75edc048f1fe7f5d849cd9661f;
  0x90a0cb753de32788543bf230b35dfe6a9764fe9e82cfc4d1e6bff42f25d90e96;
  0x33fa37f998b0740bd3d01ebf4eb5dca5fd795ca30bb2b700f6c2c5246c91c493;
  0xd792ca04aebd9abe78b9a1fe183b640d8bbb2536bb2bf02b9c5b47e08d3b0e70;
  0x6c647a1f5541b1be021e4f77cd01120521d0d33c945d4d43da55868291df55d1;
  0xb5e2d454701b0dc507a00bd2f75c84bbd5ed5c2148a57106f8b12631f2df80a1;
  0xa881cca3218459c4678bb25fbc018ebb7201965d2d05436f7cddc2a67995862e;
  0xdedee90f88380745b54e9efbbc2c0cbbcd916960c08637ac86b9cd589a766305;
  0x9176aa61da3a43f2c3aa722d4938d534e45ea3c34dd7d52d38fe3a4e4b052794;
  0x33a9a262882d67b3ba6c2441c706e1b0cb61a877e06c1a2b41d57764949dfc3a;
  0x15f335679cf24d02b0b55fdd7638c68285de4d357daa4be71b389ad9535365de;
  0x268d37928ac400f791fb3a9004bcb8840e6ab9607b27a3a52c32aa5ee2917d41;
  0xd752c21abb9fa74c23cf9a0a508bceb1e8ebf1a05fa786e83dfcabe7215cc4f8;
  0x91e86efd63cc34733df69c37a891a40f08e3d45a7ed3871bb7307e00a2f78559;
  0x8b3d8da9821538c4475232b06093d3fa288c68c003427d39f1ced9e3bbfc8c3b;
  0xe4f0ecc59161d5df34f185bccd9d60945d93e81975b957f5e9e5e440798ef26c;
  0x4836f38b45f2a424931add7980a31bf02d932c6fc999d1fc31ab23c7225027cf;
  0xa3f04ff83e71c402a9747f055b727bb483773a4b002593214381127aa56231a2;
  0xe8336acb6dc9e42fab137b0020cf959c58beb9c8dbd24817f0db4d4de21a0ce0;
  0x749af092d84e54d1364cd14639bd899f5457ff589d5c2964670d79ec9c1a02c2;
  0x2ecde3a1819b7740be340e73abd290b7be207dc8b994187f22de6eae9bc0bf87;
  0x0e8e3f84365618d1c25b8f8c021a7706b02889cb2da6e5515353072e508bb508;
  0xd3eaf468a8bc9da649bfda360e58123d08a8994961d8dcc798e8f327d77a7b58;
  0x992ef39baebd33223e7dba2f0441b02bc3ed8a8c758a93776ddb8e826c5bb603;
  0xcf169a730ff6bd430feeadfce090a00b8759d8d0bf889fc3f149e8b8873558e6;
  0xa36a7f9e0a69e28eedec63ae819092cbbe102a830ecf1f8dce1e1ebdfd9a9f76;
  0xb2059641ab0bedb3d33165cfdd3f28ea07ce982b23a5c2c28b0b13e0d6398458;
  0xc4650ca2bfcaabeafb110be319c3a28b6b22e70ece90df6c108f255831c4f369;
  0xadd2fbf87697aae5ab2e2dcaaf5124953800e7ee86c6dac559dcf3af6cf0dbcb;
  0x0231bf76c790a10e0716a216892fce49a5cc2ce69874e87eb2a94fe9c353b7fb;
  0x9287be7f0afa6983cd699e3214e93be3f148051bc4fb4ef320c804f4b794300b;
  0x54c10921cab2f4987319787ee93b32f256e0bd10a44862fd4cc70a825155c29e;
  0x9c9fd4930c70494186b5d5d9d890e2bcce7206cf188411b34d3b67ea6f8c28a2;
  0x124696e30ac0988174655a6e327422bb8965c28e21a93c3587971594163f2250;
  0x34d435f849f01d44561214651ddf3211d592d451d2a86f8735fb65f4cd4bcfdb;
  0x81c466e8a260fd147ac1d99d6bd40ac7a98fe324e269451ca267cad3012fa4e9;
  0x7b7846b99d2cb887dc01de992223a08bd13234db3fadf04f7cd70e0a52208267;
  0x5897335bc08269345973a5ac0602b03c85d898eb33e6417ff000fdb34e5c7ada;
  0xf7a26b6a8ce590440204968eaf4da18c5dc4f489c2df35ce2ffc02fc468a6fa9;
  0xbec466e3f46ce83c18bd72c0dec99fa3e5e16a53d5186a115c6b4324b52d6f98;
  0x1100fdec7e6383675829d155e86ec171267c223e1af2130f62dd917a4ab681ea;
  0xf1f78a1d39381f7dd84ece3ac14345cb63bccf0b1c88d366016820de4eb7a0f6;
  0xa210709fd33d3229ed42eb3f8adbf0b5aa1160af5247148199a372de4e262559;
  0x0d61c76993e14e1a148a2ea07fe4fd310ce5c38a507dccf31ee362f7cf6971e5;
  0x372b7dac49413e4c9dad265782bb7a697f6b7066a48cf5559b1227cbfb02729a;
  0xa2a057d9f7712ca9691427b1ef3debe2b1f4d0797c2aa61c2ebdda4290ee270e;
  0xa9587d010c296df8256bb52abcc9f14a8096637c08c53b90c2508e512193e884;
  0x6c9f2019cd581922b3467eff527ab031b0c886e1fd485ec3d66b2ddee48574bb;
  0xf2eb75eec8d833de051f90e5ce580682965818417ad8deeddf4e6b867fdd2966;
  0x6c4b80368dc184d38dbebc68662891455a43261acdedcfc3203b948995bca546;
  0xf285b9d782f0c0358d78c0660d654c01b9a4854ddc7b5cebf22e5cbfc0c44685;
  0xabe02ac7923480791ebe110154c285b48b90c9059ab48c0f1ec1dbddd54cbc31;
  0x07200f1a08c4d4fa4b78f1a5ccf3dcd2a05dac0177c506d88589c5ec2a987e9a;
  0x6ca9ae49f1eea494d74a4144591913f05c35f6561149ec1acd5e3cd8eb36c05c;
  0xdab54b18d28903cf90b96a82c856b347b5809ef67d80f359ed223c17009cb9c5;
  0x53cf050d78ec45f61faaacce15c62d92bdd990413c1760e57621e13119405648;
  0x40f885d90dd61ea2f5659e2f2bf302f4e2bf09826f62d88a8053c5b509a23510;
  0x327b935edde98f07dd5a5ddcee74e8c9aee33861ad6d8aa2c241134537bbf62a;
  0x1cc8488cc365cea31f2fa2bfdaf2cc934a7ee50cabfd150becf69e6f4461d10b;
  0x61270bb9213c5d442b34429922956b8d2bddd6334e13419ef60adcce023ffb11;
  0x540888725efd001e10d388737cf1cfa7349e1f8870aa9655492e125f3f6807ab;
  0xee9948f5a40d8ea6aa9d039a79b0ec8459f595221949cf0fafb6c57b0bf031bf;
  0xcbd459afdcc89e756164c6f50b08e8231a953ba7807175a99eeabdad06dbbab3;
  0xa06214ec846dff4a7298a6f771450ea968f06bab08e86069e0c969f37b72521c;
  0x5e4c5a26fd030caab23e28ab4cfd0f3bb05b85f1a3af85084a01f8e337e2c301;
  0x6bc341a76d491eadbbae14be981c7767681c908ae09b05ea8489ce98adcb4331;
  0xd7b2ac50e5f422a44b5fa8e1e17009beea07a30d87d1a22f1b645e1a2b9436cb;
  0xaf0242e89cb61109e8aa6e649e694e0c7e31a54ca7a67b6474e3d575d37790a8;
  0x6f6f2e174458f1d58240ba2cfac0d9070d865a2d820ca850f93c92ac5eabd882;
  0x10083b6f0167e5da6d8598a2852186d177accdb8c4510a7983bfb216c32734eb;
  0x287a0f5419f0c50b86e3d4e36a2093c4853f9fcfcd9c9918115a50d610bd0574;
  0x42d24eb3494b930f185a1864d7e44446e1969f70858bb83fc5d63b3dac58550f;
  0x9889077ff7088509a52a94303f520cd847b1998c048b4457312e0c5c1a9507ea;
  0xcfe3e2571a2c3bb8183a57e40a7f30df6d61da6fe08ec1a863b382daa684fd47;
  0xc519b871bb990b190be26744246550363e9ccf0909487de80822bc5c0c725b3f;
  0x0e8b550b04cbba89fb0a54fbf59d334f2a45b02fdd80cfc583bf0dbda8b2151e;
  0xc7816876ad9abbf99acb73461760051cde30b403c126a5d18def648dcd8a3255;
  0x1c726beba7485e1e2eea4bb84645093e0bea4bdb659968ae6fd1c85e6715e650;
  0x35ddc1c3218ad84fc1545f6ca20f19705f4cee46b36e21e1ffd9f4f28793f197;
  0xbda6ef5605ee677530ed274fbb65d9a59a615e0b03c43bf6d900cf1503dcd8a3;
  0x634da6c426d7e9540c4ec18599a4aac7b6f27f4541aa9c5ec26df1f1922fde6c;
  0x8b214efebb651d99c3bc26744e4c0004825879aa5c71b27da31418229321e262;
  0xe8150724b4cc461557c8359ad74ec82e5eaa15d665db3306a7517390d4f9a142;
  0xf06f881f349c3c8a40900f3594aac5db4eff14b3ade887380929d3125d7658d0;
  0xfe85fc2db040e0bf7f52d908972234ce554af464e48dc688262d664d91d26ef2;
  0x1e9778a904790d796d84bcc4b06a5b6f8fa55a7d7952d2df3986ae5ebbc2e244;
  0x9b3653fccbfb063809d9bd9c7697e235a29eb0e52279887b1d3729fb5b679b31;
  0xb808f5ca3212edb8d0fe6770897e4bf4e9144fbc710a7586c32c521c2566d03c;
  0x9af09d487e0b537a82b89893d84e5748912cfa7c4d1e82a889fb3a08966ec885;
  0xd522a4bcb48d7039e07e62aeedcd06b32f18ed94fc2a7d891e7283867fd88ffd;
  0x6eaae5507193866000abd5a64adac8a3737a5dc078c8273a372cba8385e9f1d7;
  0xbb4b24770db93fc62f0a5f179cbf99008cd923c082860a78016f8059dc2e0a03;
  0xdddfc2224c76486c7cf9a8aad85abc295a5272e88b500a0a3fa5d2868ca0cfb4;
  0x488557af5862fe723a09ba733ffde91d2010d4d284402b735ea9058dbc761262;
  0x2f57949e5699197663093203346d7d5f2bec999ac95a01ab37134aa771c45fe6;
  0x4026b4dea656769ba156e96e1e6b12fe4c195505bf6e7bcf4232c24fb6f665a2;
  0x49129c375ba6e6bb5695fc239fa9414fc1f82bfe3acc41f1a4d2696df87f6430;
  0x7921565e71ab7a06cfcbb597002d48f5975008ddba06649c8e9dcd1dbddfece8;
  0xfa027415863d41fa371c2dc21e44b0c9b8eba0048b2c4dd2698ed166bc4e81f0;
  0xe17ee9bc6ad89ae97ead69410fce72bc0d2517f1f12e5c81ca41e26f11ccb33c;
  0x282ba9fe238cf4d58886ca874c29771dec3f1fe49d8d1478d77543a97562c63a;
  0xf3407529d1a304af673cfb33e468bfb935b625936cfa0a2e64e5d15de429a66d;
  0x2a296a5b39c00f29aefb930028fb5f9a29b29d6260977e5390ecacd1b4f963a9;
  0x2c43bc34332e1c6471a380b2df673b3652cf5c85c74801f0cc3c3ce4271a25b3;
  0x7f8ab1c12cc5ecd1865a8307f2fa33d5a7e43c5e2a992126e8e458e74de52d59;
  0x72e5fa2b0066b23183445a58d1eca5c581480fd79c33481b0db9ff8899060742;
  0xd1d1154a63ffd0950b5550b0ce04673742208ef0b192ae37de10730284ce6d31;
  0xc4535b9687f4bcd7c4cb5acae96a92b9e84218a33b75839303cb068cfa69c1c6;
  0x9e87acd4a4f9954e433d87d2c82b246380f5d49b0ade098a24addc6e6ee1de4f;
  0x740fec2d65d826880b2b60f5f0f6fd51d8768c4121c350856600d85f17aaae67;
  0x4ee74fade23a01a878fb3c374df45c17c225066fcd6bde84297fcb6d0d076b80;
  0x3fc357a1eccb667f5efb46b8979be63b12e2d024c2a141a47f8dc2b2ac40aa94;
  0xf6d86bf1dc1c078cbb867791047c8b5b38eed75bfb229a5c0ded069a7e8ece5d;
  0x8f4b0215ac9ed4b191552eeb421e44cbe548f98ea35878997a0a5d19baa26204;
  0xdf71ec84c663fec05c571e2c6fc5085c6011af545fbe42f3ff693db7d801c00b;
  0x4ed245638c43efaa7d7c147f2beeb0f216ba3566b0a499dff75346203abcf28f;
  0x361f57ef460f29732cafc83d9eba25fe0dd319931c8036710b2a38f274f1db61;
  0xac5a8db870603e9fe07e36b13f5ddc3092449cce7d548631dfa0d716384ae460;
  0x0a4afeb28ea7f78a6c09688fb88e28a8a67d5786fa2f90dca571f6de9515ef2e;
  0xfc309547cfc0f7314465eb8394313e396c5e92da51d14a648e3b3780bfc11f48;
  0xff5737b636d1c1ffbe6c3acb14f153e190294a4b1510629bd4c822ab9dad3e37;
  0xb296579f99ecaddf65e7ad4ac94574444b2090b181277c3dcc669c81f8c056ca;
  0x3c8aae7b252f8ad62c5cbd47b0395603168652829700f7c1f76902d8f7ed0e95;
  0xe7e13fa3c5d3b35dde8c1ab0ddfa6b4fa30cdd47933fb827a557716ec1312c4d;
  0xa5af926d811d13acfb2c4a8c53c007027c0786aaa9e7ca78d2ef4ce4f1014719;
  0x813365ea51f1f636d8d776ebc9d503df97d815a152974d9c710ed1ab6f551150;
  0xcbe492e4985bdd16dadef632759ded318b5927d7201171512a30ff038b505ab5;
  0x653941a6d6d9bc633cd1834a396a9a656d7e71e1ce287b5c946406f9c5164781;
  0xc194d171091781faa47f5ce501af8b4334ff7fe52203f734ac51cb5aec54e4c7;
  0x5eece36901a3c53aa270143ba9bd667ffaf7a39098921344a685c8989f23dfe6;
  0xf2da5bf72e636a9f21f40bafdc050a179de1ea73d05fe6de8bae1ac6ca80f88d;
  0xc493e47a110d8e7e67c8849cd541ad3512f7a8c7ce83448e10f105b6f778e4f0;
  0xf492eaa6961c99ae817c48f8e3a99d4a2945f856225756a063f20f3021e24ab0;
  0x1baa1b49f804953e7058fe0fb56a91b0c96a3586d29fed08199f3ae6e9ba9d2a;
  0xa72e4243dc96df2a157145e0c716cc80520155f5128cd64d74123b48359d5782;
  0x73b5f2d413dea649c19a6fddf2c06c6d7e10103fa57c3aa2549118ca33c2a4ea;
  0xeb7198abf8ca01eb3fac129c5a73dc3b83d031a663556a8467837511c77ce4b5;
  0x9a313d9c9573a4685db9e95d9f94b125047f0acdf9ad9a478970390678edd3c8;
  0x97b46ee4200685076ddedde034be36b2906cd6bc27e4a45103dd3df11241112f;
  0xe56e81f8756b2614d5f803c98c50a7eea40a80de982652e6acbf3eb9a96f9f18;
  0x2236ba67f0aed1ee74398f778818bc9190f4f60d994e1952d10793288a21c756;
  0x25af9e197862678f76a5fd41b62a14ad7cbabc294de1153e6457613cdf94cb98;
  0x8eddd290e5189e9a09c76ed6d712441b6d27664842dd8e2a2da6fc2264734dae;
  0x8ef8e50c139db6594e1cd7a04e0594a04087aaebc631e03d4ec3e8b9bed888c2;
  0x5e5d9f74a69405ab738e867514ecbd088355b4c30437e68d0aea625c1d4349ec;
  0x63749ad9cfb7dc70b125bb4857e5446d49f838605d242b137687c22aea496084;
  0x86d7e10b7570e8b0637420fc36ff4e519a6eab0b3ffc8ac280b69a1d86ff9887;
  0x89c51b2fe7b717b11cb2f74e8b19d2b3bdccd6f049426502f56bd8e7d2061675;
  0xf66c18362c94a842ae9f96fd5fe8a693363e8759ff6c57cdc3f98b7730339f73;
  0x46d49dd175f9041488e81473117af0e0ae64cb505c13f50340712a3d616be1c7;
  0xdbfd8bf7c3b1490a8b50e596292609b6253877026373c6a492ecdd76197b8138;
  0xd7fc370c04984d1ecfaea270df3505a5b36bc2d61643a000e719e029311609b0;
  0xd8922062d40c8a8ad208d58d36ad5621d550e8fb087d1c34f90909dd1a2b4f79;
  0x6d8a40163669c72a535182b9758befef40b45b31babe1f6ddcf05b29807fbb57;
  0xdc1020d83e933047e2c67d95c88b21a1172997339674cf169ec12b7e79270d55;
  0xe35d8b3f01b5998dbd567643434bda2d34d68d705866fa771d330049f021e6b9;
  0xb30ceb66c726c55aa8bdeef02647bed83bb630d8025e1beaa2a4659163a8f3f0;
  0xdd8884430cbd1255b995444b4b251ce12456dd8409c9932b4a53d1d6e61af019;
  0x90a197b7b8e33bfeb50cc4756bced529643b3afb182001e52b13f8336cf36bc3;
  0xcb2b080d88959faab188cd442eab6908a36d8cdd0019ef26c6b65e368c5506c2;
  0x538642245d31a63b4ffc418923f6e47a203f3c84c89fb4291b3726d7d2c6be2d;
  0xb7e832af842429880bf9e3481e8a410d3fe297a28e342caf02569bc5fd07df18;
  0x29e06cd166ef787ccdee448a9b153c1f4e2693bb0de4270e420d5e1413c652ae;
  0x5216c9debc5b9fdf85bbc5594e42fd37d1acacd494c91d18fd686c1b7fd8a0fe;
  0x22045e501c08e7fd4bfd5e3730fbefb93cc5ef12bac847beb4253468845106b3;
  0xa4d8544fc360fb6b47a35bf2c937a5b40af656e73dd256375bcd06c8c366eb16;
  0xcf3730f3c43c216356e4851fca06af5a3feaec8e75aaf2a402dbc499336d49cd;
  0xf2f615b5027e1b833f69dd5582e2956b21a701cdf1706435cdd17d7280303621;
  0x5a72b1347f2f36dc741c32f6d55ecc4feb41dc1d79bc84dc3c3caa4d33b31c33;
  0x8a439cf7d579f1b7c72af5ccaf4d4c2038b068f49f4e235b16d97e45ed8564f5;
  0x2cf6e38b89eb995ff629523e4d1a1870528d114ddfac39b1848799eb9e8e3a19;
  0xc39810f82fd2812300068a93900309baaa20ed505d021f217ffeaca010a516c7;
  0x4d2f7028964ab24df12ede0ebb0d70474d9d35e3fa88a6f72d0992ca075e7423;
  0xe24fdccc7917356fa66a3044f932cad0583f3df5da8f3db29999668cd77d014d;
  0xe7f7b5bf52677f47c909ff753e0cb6422a756242da7e9774f36f7853e8ba4548;
  0xc52d65ca8138565077faae312e0da6c9662e74a4e94307f4ad6cb0b22631a125;
  0x67cf0c07b10b0e211b54630fd69e79dfea8523099792a76ee4fdf4e9f6aea0a0;
  0xa35bbe5680001e07f5e3125ab1f11119e280c8c9b8891bec92d82f4df5235436;
  0x73055117f8fc71da09e4402e46a97b6258827c6a82b8f56dd4ed293544d609bd;
  0xd8f45bee8a6d2709f94f3b8ae96a3bfbcb3baa8af9edee9332e64866f1e60d70;
  0x20f70b4b1d6ce28d3cb19b2f27a9714fe1185759ffd6109ec1ae18ba7e0b482b;
  0x50dedb3904941e369fe1f77280222ea4b78ab8e9808a678d5551d19fdbace463;
  0x92ed0bec3174253e88f618baf673554e1329094b7bfbcd13d35dd9abf016b216;
  0xd72e6b21a0de785b1c9c2e5cd8b534174c08e6ba61e650a57d436ce97df11496;
  0x2cd908c6c9e08e431bd3bcf301875953abae29e512407a57a9131c017312ba60;
  0xb86fb0c20290b07ba6955821ddfc73fd1e7d57ad54f0d2ee553e03d71eee4ce8;
  0xabb29926777623d00344ec00c5dd34ea088fc53e9f5ef3e6d3c7cdd083ad1676;
  0xa3cd6325d724e68a02ffa3f93ca5ebab36ce6519ec451ff9c320273337c673a8;
  0x695a461880f215df8c78df54a946d96d3d913b60d87441a36d3e41538f4789b7;
  0xce67a77667dfdd4b310fe48848d9aa09ecfadeaa3cb4a37050964e44853b73eb;
  0x779bd28859b018134c8e880d8a3618c424181023236cb8286c33e300ff139275;
  0x6097536dcf2cb298317ab9f254e9e396dd3d1959f4bab8499cfaf973349b946a;
  0xa35657db7e33dd28b733057677392155cc1b5230a1fe05b24ffc8e5b5198fefa;
  0x50bd6aa7cc79b76167d32eb82646e4533906bddedb5925c03405c9065fac2d98;
  0xd3c93a931625a689dd3592bab79729508468624abd1b29f3fc8a043138c2fbdd;
  0x4cae837ee76d5a1015dbf9c408957e847f9b7bf6ca7c6508055732858a2e3a6a;
  0x0ae953ad3269b7bcb3fc29e1dc17815047a20636d0ece8ba0dc6dddcbf615bda;
  0x9b60b35ced6ced368dd45c5256a6751693eadc68fdb3199b9c15c2fdb06edf5e;
  0x4fff3d2acd719a0c307986ea355754397ae1fca620951f11cae247eacc5841a6;
  0xd49c842d723e1272c9d6c24fc705297f4dba548197584cfb02348f6d67f54f47;
  0x7a52afb302ea144dbc27ab1f0c7c9af22e769094a0a9b1eff91b1eafbdf41c0b;
  0xc317dcdacf75a36c4b3d5d4c374c5c8a772d47f1678925b620e6f1eeae0e6840;
  0xd81c11d09ea2ebe388858b897a2514e6c806372d05dafa3a8307e1103e57626d;
  0xf55f1cd454c2bb268e38bbe36349a3f678e3e241552bb281a474f0235270995c;
  0xa1f316299c051adcfd77e3908b8b8e1d16a72fcd0b069f7ae3f53fb842d3ad56;
  0x3a5dc4ba414e186169b6ad39fc8e1eee638f0eb69116d9c7914c3e78ca7f2b4b;
  0xaee719a737ac4e364919e03e5445a0aa54749101ba80f9870cf20e6dc301ffdc;
  0xbea4d0d2363a0b41b49760ff706d689baadd01b9525db933022a3d57fd43e2d3;
  0xe732d14399fbeed039026f11b190354fba6434bfd8f73a24ef6362b4a0ea91ef;
  0xb0fa26cbada5201fd95b0ff3fefe6989c3cf9bb061a13e79d86b72cd59710f65;
  0x2c649e1b444bfaa921f03578039be8f40e5e8ec300f40fb2cf8755a250992c04;
  0x56bdfab60eebc37bdf53c4129b736f373556676d4744a221f1c988a89c536870;
  0x7f6ca70ea09ad6dc86113265e004c641fe4ade7c26f023e090d6fed00d0af860;
  0x946a0c394d295f9a373eb14b57879199f7f77b40082768a2b557d0e8a86beaf5;
  0x956bb6638dcfae6ed2d37ab4883e724fe35b9eef641780caac5efc9af49ad601;
  0xbbd6bff4c540040860a0df22328db32ee3ca415ae326d8f9b42e5a107941ed38;
  0x4ba55d8b5483fb0b4eef34a9a5f85538af7bbc4e921ba073bb4bf2b4cd7a6391;
  0xd7f488d79841f2beacff0a3ed506780d14869f4642201c1a827f3094898ef742;
  0x13b8ee10d8c63ccc1406374f50b83c6235b74b6e09e566dcd2899776e23a0e7f;
  0xcef09e0741a55a4fae28ffd9cee9492c33a4113fc6130b7066e321a259928248;
  0xaa3e6192682f538d4b72a6099461c5e2cfe08640786f4558796afa7bdd1b4f14;
  0x811a032a5a672ab35bdbb3a5a0ae1a6ac2e651f6a71c80d2a2cbd68054c0a119;
  0x6d40f867eb9969bd1934729f2455f97d4dfc8afe1a79a60beb99bd71d438f605;
  0xf11bb36b7ec3459d6054fcb3ea89c1492fd787504554d110ec18551d82ba8973;
  0x41c6ddf7f1d7920ac2d440aa504b65fbd35a0fc0b352cf7d2843b7f37fa68e6d;
  0x287ff2cbf1a9d6146a99ce02f55be3ae80acd199326f1bda4caf578dc321c86c;
  0xf717c949c00a247330d2c209336c342191c46c4a3cd7e6c574cf6d0475aa1d3c;
  0x407c62e377efb62b5a78ab72ebf360326fc0714d5b0884a65ed9acee28888d65;
  0x1bddb5e9b6dcb12288dee8372dd502b817cebcf99239560c5bb02eae1f5b8d6d;
  0x321c1aa0ac205274e5d2db7950f3a96d9309d50e6fb36d1051e2ff8dc48e4c2b;
  0x5155e968839912f9df9c4d6591d7f05b63e0a833bfbf06859834b241f4ce2c97;
  0x10069870cf14123388dd1bf3d59c502c7aafec7c7e5a3f1c691b28648e7e50a1;
  0xa6e9eb9d3da9c42f9aae6f283394cef1be5989de42d18f364787a82adcf070b8;
  0x0b4e9d5cd4f28e924ee797723c5e971f08178acf9d1cfcc8ba352a79d411fdd4;
  0xbbf8483324d2a924f05c202908140e3f3fd6da9ac5f253124e8953d67d1905a2;
  0xf5ce5b4d1a344626cbef7142bdc02894c6e68ca61fd5cc91742bd5f98ef6bb14;
  0xf606cc653fb2edb4402ff71980fbd71223060bd7ebc89b350e2a4b367515686a;
  0xda56c47709137e7edb64ac7d756e6af7547b8a71d4e2666cf285ceb3a25299f5;
  0xe0a350de580db0ef003512968ac580a51a40c6df2112239e26ad8a411bf7301c;
  0xd58ed0d88e40f4154e28c2823463b57c7e0a328ed5e49997bfdff4bac4603e3c;
  0xf0313f849e88f449ddecee7e8f30603b8b1fdbb3cf774d1188570c68388edc6d
].

(** [65 G] and [128 G], computed by the program. *)
Definition G65 : Point := Eval vm_compute in value_or infinity (point_multiply 65 G).
Definition G128 : Point := Eval vm_compute in value_or infinity (point_multiply 128 G).

(** * Part II: theory *)

(** ** Primality of the field modulus *)

Lemma no_divisor_upto_spec k n :
  no_divisor_upto k n = true ->
  forall d, 2 <= d < Z.of_nat k + 2 -> ~ (d | n).
Proof.
  induction k as [|k IH]; simpl; intros H d Hd; [lia|].
  apply andb_true_iff in H as [H1 H2].
  destruct (Z.eq_dec d (Z.of_nat k + 2)) as [->|Hne].
  - intros Hdiv. apply Z.mod_divide in Hdiv; [|lia].
    rewrite Hdiv in H1. discriminate.
  - apply IH; [assumption|lia].
Qed.

Lemma small_divisor n :
  1 < n -> ~ Z.prime n -> exists d, 1 < d /\ d * d <= n /\ (d | n).
Proof.
  intros Hn Hnp.
  assert (Hex : exists d, 1 < d < n /\ (d | n)).
  { apply not_prime_divide; [assumption|].
    intros Hp. apply Hnp. apply prime_alt. assumption. }
  destruct Hex as (d & Hd & e & He).
  assert (1 < e) by nia.
  destruct (Z_le_gt_dec d e).
  - exists d. repeat split; [lia|nia|exists e; assumption].
  - exists e. repeat split; [lia|nia|exists d; lia].
Qed.

Lemma trial_check_sound k n : trial_check k n = true -> Z.prime n.
Proof.
  unfold trial_check. intros H.
  apply andb_true_iff in H as [H H3]. apply andb_true_iff in H as [H1 H2].
  apply Z.ltb_lt in H1, H2.
  destruct (prime_dec n) as [Hp|Hnp]; [apply prime_alt; assumption|].
  destruct (small_divisor n H1) as (d & Hd1 & Hd2 & Hd3).
  { intros Hp. apply Hnp, prime_alt, Hp. }
  exfalso. apply (no_divisor_upto_spec k n H3 d); [nia|assumption].
Qed.

Lemma prime_divisor n : 1 < n -> exists r, Z.prime r /\ (r | n).
Proof.
  intros Hn. assert (0 <= n) as Hn0 by lia. revert Hn.
  pattern n. apply Z_lt_induction; [|assumption].
  clear n Hn0. intros n IH Hn.
  destruct (prime_dec n) as [Hp|Hnp].
  - exists n. split; [apply prime_alt; assumption|apply Z.divide_refl].
  - destruct (not_prime_divide n Hn Hnp) as (d & Hd & Hdn).
    destruct (IH d) as (r & Hr & Hrd); [lia|lia|].
    exists r. split; [assumption|]. eapply Z.divide_trans; eassumption.
Qed.

Lemma small_prime_divisor n :
  1 < n -> ~ Z.prime n -> exists r, Z.prime r /\ r * r <= n /\ (r | n).
Proof.
  intros Hn Hnp.
  destruct (small_divisor n Hn Hnp) as (d & Hd1 & Hd2 & Hd3).
  destruct (prime_divisor d Hd1) as (r & Hr & Hrd).
  exists r. split; [assumption|]. split.
  - pose proof (Z.prime_ge_2 r Hr).
    assert (r <= d) by (apply Z.divide_pos_le; [lia|assumption]). nia.
  - eapply Z.divide_trans; eassumption.
Qed.

Lemma pow_mod_one_mul a k j r :
  0 < r -> 0 <= k -> 0 <= j -> a ^ k mod r = 1 mod r -> a ^ (k * j) mod r = 1 mod r.
Proof.
  intros Hr Hk Hj H.
  rewrite Z.pow_mul_r by assumption.
  rewrite Zpower_mod by assumption. rewrite H.
  rewrite <- Zpower_mod by assumption. rewrite Z.pow_1_l by assumption. reflexivity.
Qed.

(** A Bezout relation with non-negative coefficients. *)
Lemma bezout_nonneg q m :
  0 < q -> 0 < m -> Z.gcd q m = 1 -> exists u v, 0 <= u /\ 0 <= v /\ u * q = 1 + v * m.
Proof.
  intros Hq Hm Hg.
  destruct (Z.gcd_bezout q m 1 Hg) as (u & v & Huv).
  exists (u + (Z.abs u + 1) * m), ((Z.abs u + 1) * q - v).
  assert (0 <= u + (Z.abs u + 1) * m) by nia.
  split; [assumption|]. split; [|nia].
  assert (0 < (u + (Z.abs u + 1) * m) * q) by nia.
  assert ((u + (Z.abs u + 1) * m) * q = 1 + ((Z.abs u + 1) * q - v) * m) as E by nia.
  nia.
Qed.

Section Pocklington.
Variables n a : Z.
Hypothesis Hn : 1 < n.
Hypothesis Ha : a ^ (n - 1) mod n = 1.

Variable r : Z.
Hypothesis Hr : Z.prime r.
Hypothesis Hrn : (r | n).

Let r_pos : 0 < r.
Proof. pose proof (Z.prime_ge_2 r Hr). lia. Qed.

Lemma mod_through_divisor u v : u mod n = v mod n -> u mod r = v mod r.
Proof.
  intros H. destruct Hrn as [c Hc].
  rewrite (Z.div_mod u n), (Z.div_mod v n), H by lia.
  rewrite Hc.
  rewrite !(Z.add_comm (c * r * _)).
  rewrite !(Z.mul_comm (c * r)), !Z.mul_assoc.
  rewrite !Z.mod_add by lia. reflexivity.
Qed.

Lemma pock_pow_r : a ^ (n - 1) mod r = 1 mod r.
Proof. apply mod_through_divisor. rewrite Ha. symmetry. apply Z.mod_1_l; lia. Qed.

Lemma pock_a_nz : a mod r <> 0.
Proof.
  intros H. pose proof pock_pow_r as E.
  rewrite Zpower_mod, H in E by exact r_pos.
  rewrite Z.pow_0_l in E by lia.
  pose proof (Z.prime_ge_2 r Hr).
  rewrite Z.mod_0_l, Z.mod_1_l in E by lia. discriminate.
Qed.

Lemma pock_divides q :
  Z.prime q -> (q | n - 1) -> Z.gcd (a ^ ((n - 1) / q) mod n - 1) n = 1 ->
  (q | r - 1).
Proof.
  intros Hq Hqn Hg.
  pose proof (Z.prime_ge_2 q Hq) as Hq2.
  pose proof (Z.prime_ge_2 r Hr) as Hr2.
  destruct (Z.BoolSpec_divide q (r - 1)) as [Hd|Hnd]; [assumption|exfalso].
  assert (Hcop : Z.gcd q (r - 1) = 1) by (apply Z.coprime_prime_l; assumption).
  destruct (bezout_nonneg q (r - 1)) as (u & v & Hu & Hv & Huv); try lia.
  set (d := (n - 1) / q).
  assert (Hd : n - 1 = q * d).
  { unfold d. destruct Hqn as [c Hc]. rewrite Hc, Z.div_mul by lia. ring. }
  assert (0 <= d) by nia.
  assert (E1 : a ^ (d * (u * q)) mod r = 1 mod r).
  { replace (d * (u * q)) with ((n - 1) * u) by (rewrite Hd; ring).
    apply pow_mod_one_mul; try lia. apply pock_pow_r. }
  assert (E2 : a ^ (d * (u * q)) mod r = a ^ d mod r).
  { rewrite Huv. replace (d * (1 + v * (r - 1))) with (d + (r - 1) * (v * d)) by ring.
    rewrite Z.pow_add_r by nia.
    rewrite Z.mul_mod by lia.
    rewrite (pow_mod_one_mul a (r - 1) (v * d) r); try nia.
    - rewrite <- Z.mul_mod by lia. rewrite Z.mul_1_r. reflexivity.
    - rewrite Z.fermat_nz; [symmetry; apply Z.mod_1_l; lia|assumption|apply pock_a_nz]. }
  assert (E3 : (a ^ d mod n) mod r = 1 mod r).
  { rewrite <- E1, E2. apply mod_through_divisor. apply Z.mod_mod. lia. }
  assert (Hdiv : (r | a ^ d mod n - 1)).
  { apply Z.mod_divide; [lia|].
    rewrite Zminus_mod, E3, Z.sub_diag. apply Z.mod_0_l. lia. }
  assert (Hr1 : (r | 1)).
  { rewrite <- Hg. apply Z.gcd_greatest; assumption. }
  apply Z.divide_1_r_nonneg in Hr1; lia.
Qed.
End Pocklington.

Lemma strictly_decreasing_tail q tl :
  strictly_decreasing (q :: tl) = true ->
  strictly_decreasing tl = true /\ Forall (fun q' => q' < q) tl.
Proof.
  revert q. induction tl as [|q' tl IH]; intros q H.
  - split; [reflexivity|constructor].
  - change (((q' <? q) && strictly_decreasing (q' :: tl)) = true) in H.
    apply andb_true_iff in H as [H1 H2]. apply Z.ltb_lt in H1.
    split; [assumption|]. constructor; [assumption|].
    destruct (IH q' H2) as [_ Hall].
    eapply Forall_impl; [|exact Hall]. simpl. intros; lia.
Qed.

Lemma coprime_prod_smaller_primes q tl :
  Z.prime q -> Forall Z.prime tl -> Forall (fun q' => q' < q) tl ->
  Z.coprime q (prod_list tl).
Proof.
  intros Hq Hp Hlt. induction tl as [|q' tl IH]; simpl.
  - apply Z.coprime_1_r.
  - inversion Hp; subst. inversion Hlt; subst.
    apply Z.coprime_mul_r; [|apply IH; assumption].
    apply Z.coprime_prime_l; [assumption|].
    intros Hd. apply Z.divide_prime_prime in Hd; [lia|assumption|assumption].
Qed.

Lemma prod_primes_divides qs m :
  Forall Z.prime qs -> strictly_decreasing qs = true ->
  Forall (fun q => (q | m)) qs -> (prod_list qs | m).
Proof.
  induction qs as [|q tl IH]; intros Hp Hdec Hdiv; simpl.
  - apply Z.divide_1_l.
  - inversion Hp; subst. inversion Hdiv; subst.
    destruct (strictly_decreasing_tail q tl Hdec) as [Hdec' Hlt].
    specialize (IH ltac:(assumption) Hdec' ltac:(assumption)).
    pose proof (coprime_prod_smaller_primes q tl ltac:(assumption) ltac:(assumption) Hlt) as Hc.
    match goal with h : (q | m) |- _ => destruct h as [c Hc'] end.
    assert (Htl : (prod_list tl | c)).
    { apply Z.gauss with (m := q); [rewrite Z.mul_comm, <- Hc'; exact IH|].
      unfold Z.coprime in Hc. rewrite Z.gcd_comm. exact Hc. }
    rewrite Hc', (Z.mul_comm c q).
    apply Z.mul_divide_mono_l. exact Htl.
Qed.

Lemma prod_primes_pos qs : Forall Z.prime qs -> 0 < prod_list qs.
Proof.
  induction 1 as [|q tl Hq _ IH]; simpl; [lia|].
  pose proof (Z.prime_ge_2 q Hq). nia.
Qed.

Theorem pock_check_sound n a qs :
  Forall Z.prime qs -> pock_check n a qs = true -> Z.prime n.
Proof.
  intros Hqs H. unfold pock_check in H.
  repeat (apply andb_true_iff in H; destruct H as [H ?]).
  apply Z.ltb_lt in H. rename H into Hn.
  match goal with h : (Zpow_mod _ _ _ =? 1) = true |- _ => apply Z.eqb_eq in h; rename h into Ha end.
  match goal with h : (_ <? _ * _) = true |- _ => apply Z.ltb_lt in h; rename h into HF end.
  rewrite Zpow_mod_correct in Ha by lia.
  destruct (prime_dec n) as [Hp|Hnp]; [apply prime_alt; assumption|exfalso].
  destruct (small_prime_divisor n Hn) as (r & Hr & Hrr & Hrn).
  { intros Hp. apply Hnp, prime_alt, Hp. }
  assert (Hdiv : (prod_list qs | r - 1)).
  { apply prod_primes_divides; [assumption|assumption|].
    rewrite Forall_forall. intros q Hin.
    match goal with h : forallb _ _ = true |- _ => rewrite forallb_forall in h; specialize (h q Hin); rename h into Hq end.
    unfold pock_factor_ok in Hq.
    repeat (apply andb_true_iff in Hq; destruct Hq as [Hq ?]).
    rewrite Forall_forall in Hqs.
    apply (pock_divides n a Hn Ha r Hr Hrn q (Hqs q Hin)).
    - apply Z.mod_divide; [apply Z.ltb_lt in Hq; lia|]. apply Z.eqb_eq. assumption.
    - rewrite <- Zpow_mod_correct by lia. apply Z.eqb_eq. assumption. }
  pose proof (prod_primes_pos qs Hqs).
  pose proof (Z.prime_ge_2 r Hr).
  apply Z.divide_pos_le in Hdiv; [|lia]. nia.
Qed.

Create HintDb primes.

Ltac prove_small_prime k := apply (trial_check_sound k); vm_compute; reflexivity.
Ltac prove_pock qs :=
  apply (pock_check_sound _ 2 qs); [repeat (apply Forall_cons; [solve [auto with primes]|]); apply Forall_nil | vm_compute; reflexivity].

Lemma prime_7 : Z.prime 7. Proof. prove_small_prime 1%nat. Qed.
Lemma prime_29 : Z.prime 29. Proof. prove_small_prime 4%nat. Qed.
Lemma prime_53 : Z.prime 53. Proof. prove_small_prime 6%nat. Qed.
Lemma prime_20113 : Z.prime 20113. Proof. prove_small_prime 140%nat. Qed.
Lemma prime_96557 : Z.prime 96557. Proof. prove_small_prime 309%nat. Qed.
#[local] Hint Resolve prime_7 prime_29 prime_53 prime_20113 prime_96557 : primes.

Lemma prime_107590001 : Z.prime 107590001.
Proof. prove_pock [53; 29; 7]. Qed.
Lemma prime_1206781 : Z.prime 1206781.
Proof. prove_pock (20113 :: nil). Qed.
#[local] Hint Resolve prime_107590001 prime_1206781 : primes.
Lemma prime_7240687 : Z.prime 7240687.
Proof. prove_pock (1206781 :: nil). Qed.
#[local] Hint Resolve prime_7240687 : primes.
Lemma prime_c39 : Z.prime 255515944373312847190720520512484175977.
Proof. prove_pock [107590001; 7240687; 96557]. Qed.
#[local] Hint Resolve prime_c39 : primes.
Lemma prime_q237 :
  Z.prime 205115282021455665897114700593932402728804164701536103180137503955397371.
Proof. prove_pock (255515944373312847190720520512484175977 :: nil). Qed.
#[local] Hint Resolve prime_q237 : primes.
Lemma prime_field_modulus :
  Z.prime 0xFFFFFFFFFFFFFFFFFFFFFFFFFFFFFFFFFFFFFFFFFFFFFFFFFFFFFFFEFFFFFC2F.
Proof.
  prove_pock (205115282021455665897114700593932402728804164701536103180137503955397371 :: nil).
Qed.

(** ** The extended Euclidean loop *)

Lemma log2_half_lt t u : 0 < t -> 2 * t <= u -> Z.log2 t < Z.log2 u.
Proof.
  intros Ht Hu.
  assert (Z.log2 (2 * t) = Z.succ (Z.log2 t)) by (apply Z.log2_double; lia).
  assert (Z.log2 (2 * t) <= Z.log2 u) by (apply Z.log2_le_mono; lia).
  lia.
Qed.

Lemma rem_halves u r : 0 < r -> r <= u -> 2 * (u mod r) <= u.
Proof.
  intros Hr Hu.
  pose proof (Z.mod_pos_bound u r Hr).
  pose proof (Z.div_mod u r ltac:(lia)).
  assert (1 <= u / r) by (apply Z.div_le_lower_bound; lia).
  nia.
Qed.

Lemma euclid_inv_step a m old_r r old_s s :
  0 < r -> euclid_inv a m old_r r old_s s ->
  euclid_inv a m r (old_r - old_r / r * r) s (old_s - old_r / r * s).
Proof.
  intros Hr (Hr0 & H1 & H2 & Hg).
  assert (E : old_r - old_r / r * r = old_r mod r) by (rewrite Z.mod_eq; lia).
  split; [|split; [|split]].
  - rewrite E. apply Z.mod_pos_bound. assumption.
  - assumption.
  - replace (old_r - old_r / r * r - (old_s - old_r / r * s) * a)
      with ((old_r - old_s * a) - old_r / r * (r - s * a)) by ring.
    apply Z.divide_sub_r; [assumption|]. apply Z.divide_mul_r. assumption.
  - rewrite E, Z.gcd_comm, Z.gcd_mod by lia. rewrite Z.gcd_comm. assumption.
Qed.

Lemma loop_descending a m fuel : forall old_r r old_s s,
  r <= old_r -> euclid_inv a m old_r r old_s s ->
  Z.log2 old_r + Z.log2 r < Z.of_nat fuel ->
  exists c, mod_inverse_loop fuel old_r r old_s s = Ok c /\ (m | Z.gcd a m - c * a).
Proof.
  induction fuel as [|fuel IH]; intros old_r r old_s s Hle Hinv Hfuel.
  - pose proof (Z.log2_nonneg old_r). pose proof (Z.log2_nonneg r). simpl in Hfuel. lia.
  - pose proof Hinv as (Hr0 & H1 & H2 & Hg).
    cbn [mod_inverse_loop]. destruct (Z.eqb_spec r 0) as [->|Hnz].
    + exists old_s. split; [reflexivity|].
      rewrite <- Hg, Z.gcd_0_r, Z.abs_eq by lia. assumption.
    + assert (Hr : 0 < r) by lia.
      pose proof (euclid_inv_step a m old_r r old_s s Hr Hinv) as Hinv'.
      assert (E : old_r - old_r / r * r = old_r mod r) by (rewrite Z.mod_eq; lia).
      pose proof (Z.mod_pos_bound old_r r Hr) as Hb.
      destruct (Z.eq_dec (old_r mod r) 0) as [Hz|Hz].
      * rewrite E, Hz in *. destruct fuel; cbn [mod_inverse_loop]; simpl (0 =? 0);
          (exists s; split; [reflexivity|]);
          destruct Hinv' as (_ & H1' & _ & Hg');
          rewrite <- Hg', Z.gcd_0_r, Z.abs_eq by lia; assumption.
      * apply IH; [lia|assumption|].
        rewrite E.
        pose proof (rem_halves old_r r Hr Hle).
        pose proof (log2_half_lt (old_r mod r) old_r ltac:(lia) ltac:(lia)).
        lia.
Qed.

Lemma loop_unfold fuel old_r r old_s s :
  mod_inverse_loop (S fuel) old_r r old_s s =
  if r =? 0 then Ok old_s
  else mod_inverse_loop fuel r (old_r - old_r / r * r) s (old_s - old_r / r * s).
Proof. reflexivity. Qed.

Lemma loop_from_start a m :
  0 <= a -> 0 < m ->
  exists c, mod_inverse_loop (mod_inverse_fuel a m) a m 1 0 = Ok c
            /\ (m | Z.gcd a m - c * a).
Proof.
  intros Ha Hm.
  assert (Hinv : euclid_inv a m a m 1 0).
  { split; [|split; [|split]]; [lia| | |reflexivity].
    - replace (a - 1 * a) with 0 by ring. apply Z.divide_0_r.
    - replace (m - 0 * a) with m by ring. apply Z.divide_refl. }
  unfold mod_inverse_fuel. rewrite !Z.abs_eq by lia.
  pose proof (Z.log2_nonneg a). pose proof (Z.log2_nonneg m).
  destruct (Z_le_gt_dec m a) as [Hle|Hgt].
  - apply loop_descending; [assumption|assumption|]. lia.
  - rewrite loop_unfold. destruct (Z.eqb_spec m 0); [lia|].
    pose proof (euclid_inv_step a m a m 1 0 Hm Hinv) as Hinv'.
    rewrite Z.div_small in * by lia.
    replace (a - 0 * m) with a in * by ring.
    apply loop_descending; [lia|exact Hinv'|]. lia.
Qed.

(** Total correctness of [mod_inverse] for a positive modulus. *)
Lemma mod_inverse_spec a m :
  0 < m ->
  exists b, mod_inverse a m = Ok b /\ 0 <= b < m /\
            (a * b) mod m = Z.gcd a m mod m.
Proof.
  intros Hm. unfold mod_inverse.
  destruct (Z.eqb_spec m 0); [lia|].
  set (a' := if a <? 0 then (a mod m + m) mod m else a).
  assert (Ha' : 0 <= a' /\ a' mod m = a mod m).
  { unfold a'. destruct (Z.ltb_spec a 0).
    - split; [apply Z.mod_pos_bound; lia|].
      rewrite Z.mod_mod by lia.
      rewrite <- Z.add_mod_idemp_r, Z.mod_same, Z.add_0_r, Z.mod_mod by lia. reflexivity.
    - split; [lia|reflexivity]. }
  destruct Ha' as [Ha0 Hcong].
  destruct (loop_from_start a' m Ha0 Hm) as (c & Hc & Hdiv).
  rewrite Hc. cbn [bind]. exists (c mod m).
  split; [reflexivity|]. split; [apply Z.mod_pos_bound; lia|].
  assert (Hg : Z.gcd a' m = Z.gcd a m).
  { rewrite <- (Z.gcd_mod_l a' m), Hcong, Z.gcd_mod_l. reflexivity. }
  rewrite Hg in Hdiv.
  rewrite Z.mul_mod_idemp_r by lia.
  rewrite Z.mul_mod, <- Hcong, <- Z.mul_mod by lia.
  destruct Hdiv as [k Hk].
  replace (a' * c) with (Z.gcd a m + (- k) * m) by lia.
  apply Z.mod_add. lia.
Qed.

(** ** The group law of [y^2 = x^3 + 7] over an abstract field *)

Section CurveLaws.
Variable F : Type.
Variables (zero one : F) (add mul sub : F -> F -> F) (opp : F -> F)
          (div : F -> F -> F) (inv : F -> F).
Hypothesis Ffield : field_theory zero one add mul sub opp div inv eq.
Hypothesis Fdec : forall a b : F, {a = b} + {a <> b}.

Declare Scope F_scope.
Delimit Scope F_scope with F.
#[local] Notation "0" := zero : F_scope.
#[local] Notation "1" := one : F_scope.
#[local] Infix "+" := add : F_scope.
#[local] Infix "*" := mul : F_scope.
#[local] Infix "-" := sub : F_scope.
#[local] Infix "/" := div : F_scope.
#[local] Notation "- a" := (opp a) : F_scope.
#[local] Open Scope F_scope.

#[local] Abbreviation num := (of_pos F one add mul).
#[local] Abbreviation is_on := (on F one add mul).
#[local] Abbreviation plus := (padd F one add mul sub div Fdec).
#[local] Abbreviation neg := (pneg F opp).
#[local] Abbreviation times := (nmul F one add mul sub div Fdec).
#[local] Abbreviation plus_spec := (padd_spec F one add mul sub).

Add Field Ffld : Ffield.

(** The characteristic is large, and [-7] is not a cube: the curve has
    no point of order two. *)
Hypothesis char_large : forall p, (Z.pos p < 2 ^ 128)%Z -> num p <> 0.
Hypothesis no_root : forall a, a * a * a + num 7 <> 0.

(** *** The solver's view of the field *)

#[local] Instance F_ops : @Ring_ops F zero one add mul sub opp eq := {}.

#[local] Instance F_ring : Ring (Ro := F_ops).
Proof.
  pose proof (F_R Ffield) as R.
  split; try apply eq_equivalence; try solve_proper; cbv; intros; ring.
Qed.

#[local] Instance F_cring : Cring (Rr := F_ring).
Proof. intros a b. cbv. ring. Qed.

Lemma mul_zero a b : a * b = 0 -> a = 0 \/ b = 0.
Proof.
  intros H. destruct (Fdec a 0) as [|Ha]; [left; assumption|right].
  assert (b = (a * b) / a) as -> by (field; assumption).
  rewrite H. field. assumption.
Qed.

#[local] Instance F_id : Integral_domain (Rcr := F_cring).
Proof. split; [exact mul_zero|exact (F_1_neq_0 Ffield)]. Qed.

(** The solver may leave an integer constant to be shown non-zero. *)
Lemma discr_pos p fv :
  (Z.pos p <? 2 ^ 128)%Z = true -> ~ (interpret3 (PEc (Z.pos p)) fv == 0).
Proof. intros H. apply Z.ltb_lt in H. exact (char_large p H). Qed.

Lemma discr_neg p fv :
  (Z.pos p <? 2 ^ 128)%Z = true -> ~ (interpret3 (PEc (Z.neg p)) fv == 0).
Proof.
  intros H E. apply Z.ltb_lt in H. apply (char_large p H).
  change (- num p = 0) in E.
  transitivity (- - num p); [ring|]. rewrite E. ring.
Qed.

Ltac discr := first [apply discr_pos | apply discr_neg]; reflexivity.
Ltac solve_poly := cbn [of_pos] in *; nsatz; discr.
Ltac fld := cbn [of_pos] in *; field; repeat split; auto.

Lemma of_pos_xO p : num (xO p) = (1 + 1) * num p.
Proof. destruct p; cbn [of_pos]; ring. Qed.

Lemma of_pos_xI p : num (xI p) = 1 + (1 + 1) * num p.
Proof. destruct p; cbn [of_pos]; ring. Qed.

Lemma two_nz : num 2 <> 0.
Proof. apply char_large. reflexivity. Qed.

Lemma sub_nz a b : a <> b -> b - a <> 0.
Proof.
  intros H E. apply H. symmetry.
  transitivity (b - a + a); [ring|rewrite E; ring].
Qed.

Lemma y_nz a b : b * b = a * a * a + num 7 -> b <> 0.
Proof. intros H Hb. apply (no_root a). rewrite <- H, Hb. cbn [of_pos]. ring. Qed.

Lemma double_nz b : b <> 0 -> num 2 * b <> 0.
Proof.
  intros Hb E. destruct (mul_zero _ _ E); [apply two_nz|apply Hb]; assumption.
Qed.

(** *** Elementary laws *)

Lemma padd_inf_l p : plus Inf p = p.
Proof. reflexivity. Qed.

Lemma padd_inf_r p : plus p Inf = p.
Proof. destruct p; reflexivity. Qed.

Lemma padd_spec_ok x1 y1 x2 y2 :
  y1 * y1 = x1 * x1 * x1 + num 7 ->
  plus_spec x1 y1 x2 y2 (plus (Aff x1 y1) (Aff x2 y2)).
Proof.
  intros H1. pose proof (y_nz _ _ H1) as Hy1. pose proof two_nz as H2.
  pose proof (double_nz _ Hy1) as Hd. cbn [padd].
  destruct (Fdec x1 x2) as [Ex|Nx]; [destruct (Fdec y1 y2) as [Ey|Ny]|].
  - replace (num 3 * x1 * x1 / (num 2 * y1))
      with (num 3 * x1 * x1 * inv (num 2 * y1)) by fld.
    apply PS_dbl with (i := inv (num 2 * y1))
                      (s := num 3 * x1 * x1 * inv (num 2 * y1));
      try assumption; try reflexivity.
    fld.
  - pose proof (sub_nz _ _ Ny).
    apply PS_opp with (i := inv (y2 - y1)); [assumption|]. fld.
  - pose proof (sub_nz _ _ Nx).
    replace ((y2 - y1) / (x2 - x1)) with ((y2 - y1) * inv (x2 - x1)) by fld.
    apply PS_add with (i := inv (x2 - x1)) (s := (y2 - y1) * inv (x2 - x1));
      try reflexivity.
    fld.
Qed.

Theorem padd_on p q : is_on p -> is_on q -> is_on (plus p q).
Proof.
  destruct p as [|x1 y1], q as [|x2 y2]; try (simpl; tauto).
  intros H1 H2. pose proof (padd_spec_ok x1 y1 x2 y2 H1) as S.
  destruct S as [s i x3 y3 Ex Ey Hi Hs Hx Hy|i Ex Hi|s i x3 y3 Hi Hs Hx Hy];
    simpl in *; try exact I.
  - subst x1 y1 s y3 x3. solve_poly.
  - subst s y3 x3. solve_poly.
Qed.

Theorem padd_comm p q : plus p q = plus q p.
Proof.
  destruct p as [|x1 y1], q as [|x2 y2]; try reflexivity. cbn [padd].
  destruct (Fdec x1 x2) as [Ex|Nx], (Fdec x2 x1) as [Ex'|Nx'];
    try (exfalso; congruence).
  - destruct (Fdec y1 y2) as [Ey|Ny], (Fdec y2 y1) as [Ey'|Ny'];
      try (exfalso; congruence); [|reflexivity].
    subst. reflexivity.
  - pose proof (sub_nz _ _ Nx). pose proof (sub_nz _ _ Nx').
    f_equal; fld.
Qed.

Lemma pneg_on p : is_on p -> is_on (neg p).
Proof.
  destruct p as [|a b]; cbn [on pneg]; [trivial|]. intros H. rewrite <- H. ring.
Qed.

Theorem padd_pneg p : is_on p -> plus p (neg p) = Inf.
Proof.
  destruct p as [|a b]; [reflexivity|]. intros H. cbn [padd pneg].
  destruct (Fdec a a) as [_|Nx]; [|congruence].
  destruct (Fdec b (- b)) as [Ey|Ny]; [exfalso|reflexivity].
  apply (double_nz b (y_nz _ _ H)).
  transitivity (b + - b); [rewrite <- Ey|]; cbn [of_pos]; ring.
Qed.

(** The sum of two points described by a slope that is only checked, not
    computed: used to certify long computations step by step. *)
Lemma padd_double_slope a b s :
  is_on (Aff a b) -> s * (num 2 * b) = num 3 * a * a ->
  plus (Aff a b) (Aff a b) = Aff (s * s - a - a) (s * (a - (s * s - a - a)) - b).
Proof.
  intros H Hs. pose proof (y_nz _ _ H) as Hb. pose proof two_nz as H2.
  cbn [padd]. destruct (Fdec a a) as [_|Na]; [|congruence].
  destruct (Fdec b b) as [_|Nb]; [|congruence]. cbv zeta.
  replace (num 3 * a * a / (num 2 * b)) with s; [reflexivity|].
  rewrite <- Hs. fld.
Qed.

Lemma padd_add_slope x1 y1 x2 y2 s :
  x1 <> x2 -> s * (x2 - x1) = y2 - y1 ->
  plus (Aff x1 y1) (Aff x2 y2) =
  Aff (s * s - x1 - x2) (s * (x1 - (s * s - x1 - x2)) - y1).
Proof.
  intros Nx Hs. pose proof (sub_nz _ _ Nx) as Hd.
  cbn [padd]. destruct (Fdec x1 x2) as [E|_]; [contradiction|]. cbv zeta.
  replace ((y2 - y1) / (x2 - x1)) with s; [reflexivity|].
  rewrite <- Hs. fld.
Qed.

Lemma padd_opposite a b b' :
  is_on (Aff a b) -> b + b' = 0 -> plus (Aff a b) (Aff a b') = Inf.
Proof.
  intros H Hs. cbn [padd]. destruct (Fdec a a) as [_|Na]; [|congruence].
  destruct (Fdec b b') as [E|_]; [exfalso|reflexivity].
  apply (double_nz b (y_nz _ _ H)). rewrite <- Hs, <- E. cbn [of_pos]. ring.
Qed.

(** *** Associativity

    Each of the four sums is replaced by its division-free description;
    what remains in every combination of cases is a polynomial identity,
    or a polynomial contradiction, which the Groebner-basis solver
    settles. *)

Ltac use_spec S x3 y3 :=
  let s := fresh "s" in let i := fresh "i" in
  let Ex := fresh "Ex" in let Ey := fresh "Ey" in
  let Hi := fresh "Hi" in let Hs := fresh "Hs" in
  let Hx := fresh "Hx" in let Hy := fresh "Hy" in
  destruct S as [s i x3 y3 Ex Ey Hi Hs Hx Hy|i Ex Hi|s i x3 y3 Hi Hs Hx Hy];
  try subst x3 y3; try subst s.

Ltac finish_case :=
  match goal with
  | |- Aff _ _ = Aff _ _ => f_equal; solve_poly
  | |- Inf = Aff _ _ => exfalso; apply (F_1_neq_0 Ffield); solve_poly
  | |- Aff _ _ = Inf => exfalso; apply (F_1_neq_0 Ffield); solve_poly
  end.

Theorem padd_assoc p q r :
  is_on p -> is_on q -> is_on r -> plus (plus p q) r = plus p (plus q r).
Proof.
  intros Hp Hq Hr.
  destruct p as [|x1 y1]; [reflexivity|].
  destruct q as [|x2 y2]; [reflexivity|].
  destruct r as [|x3 y3]; [rewrite !padd_inf_r; reflexivity|].
  pose proof (padd_on _ _ Hp Hq) as Hpq. pose proof (padd_on _ _ Hq Hr) as Hqr.
  pose proof (padd_spec_ok x1 y1 x2 y2 Hp) as S12.
  pose proof (padd_spec_ok x2 y2 x3 y3 Hq) as S23.
  revert Hpq Hqr.
  destruct S12 as [s i x12 y12 Ex Ey Hi Hs Hx Hy|i Ex Hi|s i x12 y12 Hi Hs Hx Hy];
  destruct S23 as [s' i' x23 y23 Ex' Ey' Hi' Hs' Hx' Hy'|i' Ex' Hi'
                  |s' i' x23 y23 Hi' Hs' Hx' Hy'];
  intros Hpq Hqr.
  all: try (pose proof (padd_spec_ok x12 y12 x3 y3 Hpq) as SL; use_spec SL xl yl).
  all: try (pose proof (padd_spec_ok x1 y1 x23 y23 Hp) as SR; use_spec SR xr yr).
  all: cbn [padd on] in *; try reflexivity; clear Hpq Hqr.
  all: try subst x12 y12; try subst x23 y23; try subst s; try subst s'.
  all: finish_case.
Qed.

(** Two points of the curve with the same abscissa are equal or opposite. *)
Lemma same_abscissa a b b' :
  is_on (Aff a b) -> is_on (Aff a b') -> b' = b \/ b' = - b.
Proof.
  cbn [on]. intros H H'.
  assert (E : (b' - b) * (b' + b) = 0).
  { transitivity (b' * b' - b * b); [ring|]. rewrite H, H'. ring. }
  destruct (mul_zero _ _ E) as [E1|E1]; [left|right].
  - transitivity (b' - b + b); [ring|]. rewrite E1. ring.
  - transitivity (b' + b - b); [ring|]. rewrite E1. ring.
Qed.

(** *** Cancellation and repeated addition *)

Lemma padd_cancel_r p q r :
  is_on p -> is_on q -> is_on r -> plus p r = plus q r -> p = q.
Proof.
  intros Hp Hq Hr H.
  assert (E : plus (plus p r) (neg r) = plus (plus q r) (neg r)) by (rewrite H; reflexivity).
  rewrite !padd_assoc in E by (try apply pneg_on; assumption).
  rewrite padd_pneg, !padd_inf_r in E by assumption. exact E.
Qed.

Lemma nmul_on n p : is_on p -> is_on (times n p).
Proof.
  intros Hp. induction n as [|n IH]; cbn [nmul]; [exact I|].
  apply padd_on; assumption.
Qed.

Lemma nmul_plus a b p :
  is_on p -> times (a + b) p = plus (times a p) (times b p).
Proof.
  intros Hp. induction b as [|b IH].
  - rewrite Nat.add_0_r. cbn [nmul]. rewrite padd_inf_r. reflexivity.
  - rewrite Nat.add_succ_r. cbn [nmul]. rewrite IH.
    apply padd_assoc; try apply nmul_on; assumption.
Qed.

Lemma nmul_double n p : is_on p -> times n (plus p p) = times (2 * n) p.
Proof.
  intros Hp. induction n as [|n IH]; [reflexivity|].
  replace (2 * S n)%nat with (S (S (2 * n))) by lia.
  cbn [nmul]. rewrite IH.
  symmetry. apply padd_assoc; try apply nmul_on; assumption.
Qed.

Lemma nmul_inf n : times n Inf = Inf.
Proof. induction n as [|n IH]; cbn [nmul]; [reflexivity|]. rewrite IH. reflexivity. Qed.

Lemma nmul_mult a b p : is_on p -> times (a * b) p = times a (times b p).
Proof.
  intros Hp. induction a as [|a IH]; [reflexivity|].
  replace (S a * b)%nat with (a * b + b)%nat by lia.
  rewrite nmul_plus by assumption. rewrite IH. reflexivity.
Qed.
End CurveLaws.

(** ** The field of the curve *)

Lemma P_prime : Z.prime P.
Proof. exact prime_field_modulus. Qed.

Lemma P_pos : 0 < P.
Proof. reflexivity. Qed.

Lemma P_large : 2 ^ 128 < P.
Proof. reflexivity. Qed.

(** [-7] is not a cube modulo [P]: a cube root [x] would give
    [(-7)^((P-1)/3) = x^(P-1) = 1] by Fermat's little theorem. *)
Lemma no_cube_root (x : Z) : (x * x * x + B) mod P <> 0.
Proof.
  intros H.
  assert (Hx3 : (x ^ 3) mod P = (- B) mod P).
  { replace (x ^ 3) with ((x * x * x + B) + - B) by (unfold B; ring).
    rewrite <- Z.add_mod_idemp_l, H by (pose proof P_pos; lia). reflexivity. }
  assert (Hxnz : x mod P <> 0).
  { intros Hz. rewrite Zpower_mod, Hz in Hx3 by exact P_pos.
    assert (Hc : 0 ^ 3 mod P <> - B mod P) by (vm_compute; discriminate).
    exact (Hc Hx3). }
  assert (Hc : Zpow_mod (- B) ((P - 1) / 3) P <> 1) by (vm_compute; discriminate).
  apply Hc. rewrite Zpow_mod_correct by (vm_compute; discriminate).
  rewrite Zpower_mod, <- Hx3, <- Zpower_mod by exact P_pos.
  rewrite <- Z.pow_mul_r by (vm_compute; discriminate).
  replace (3 * ((P - 1) / 3)) with (P - 1) by (vm_compute; reflexivity).
  exact (Z.fermat_nz P x P_prime Hxnz).
Qed.

Lemma Fp_field :
  field_theory (@Zmod.zero P) Zmod.one Zmod.add Zmod.mul Zmod.sub Zmod.opp
    Zmod.mdiv Zmod.inv eq.
Proof. exact (Zmod.field_theory P P_prime). Qed.

Lemma fnum_of_Z p : fnum p = fof (Z.pos p).
Proof.
  unfold fnum, fof. induction p as [p IH|p IH|].
  - rewrite (of_pos_xI _ _ _ _ _ _ _ _ _ Fp_field), IH.
    replace (Z.pos p~1) with (1 + (1 + 1) * Z.pos p) by lia.
    rewrite Zmod.of_Z_add, Zmod.of_Z_mul, Zmod.of_Z_add, Zmod.of_Z_1. reflexivity.
  - rewrite (of_pos_xO _ _ _ _ _ _ _ _ _ Fp_field), IH.
    replace (Z.pos p~0) with ((1 + 1) * Z.pos p) by lia.
    rewrite Zmod.of_Z_mul, Zmod.of_Z_add, Zmod.of_Z_1. reflexivity.
  - symmetry. apply Zmod.of_Z_1.
Qed.

Lemma fof_zero_iff z : fof z = Zmod.zero <-> z mod P = 0.
Proof.
  unfold fof. rewrite <- (Zmod.of_Z_0 P), Zmod.of_Z_inj.
  rewrite Z.mod_0_l by (vm_compute; discriminate). reflexivity.
Qed.

Lemma Fp_char p : Z.pos p < 2 ^ 128 -> fnum p <> Zmod.zero.
Proof.
  intros Hp. rewrite fnum_of_Z, fof_zero_iff.
  pose proof P_large. rewrite Z.mod_small by lia. lia.
Qed.

Lemma Fp_no_root (a : Fp) :
  Zmod.add (Zmod.mul (Zmod.mul a a) a) (fnum 7) <> Zmod.zero.
Proof.
  rewrite fnum_of_Z. rewrite <- (Zmod.of_Z_to_Z a). fold (fof (Zmod.to_Z a)).
  unfold fof. rewrite <- !Zmod.of_Z_mul, <- Zmod.of_Z_add.
  fold (fof (Zmod.to_Z a * Zmod.to_Z a * Zmod.to_Z a + 7)).
  rewrite fof_zero_iff. apply no_cube_root.
Qed.

Theorem fadd_on p q : fon p -> fon q -> fon (fadd p q).
Proof. apply (padd_on _ _ _ _ _ _ _ _ _ Fp_field Fp_dec Fp_char Fp_no_root). Qed.

Theorem fadd_comm p q : fadd p q = fadd q p.
Proof. apply (padd_comm _ _ _ _ _ _ _ _ _ Fp_field Fp_dec). Qed.

Theorem fadd_assoc p q r :
  fon p -> fon q -> fon r -> fadd (fadd p q) r = fadd p (fadd q r).
Proof. apply (padd_assoc _ _ _ _ _ _ _ _ _ Fp_field Fp_dec Fp_char Fp_no_root). Qed.

Lemma fmul_on n p : fon p -> fon (fmul n p).
Proof. apply (nmul_on _ _ _ _ _ _ _ _ _ Fp_field Fp_dec Fp_char Fp_no_root). Qed.

Lemma fmul_plus a b p : fon p -> fmul (a + b) p = fadd (fmul a p) (fmul b p).
Proof. apply (nmul_plus _ _ _ _ _ _ _ _ _ Fp_field Fp_dec Fp_char Fp_no_root). Qed.

Lemma fmul_double n p : fon p -> fmul n (fadd p p) = fmul (2 * n) p.
Proof. apply (nmul_double _ _ _ _ _ _ _ _ _ Fp_field Fp_dec Fp_char Fp_no_root). Qed.

Lemma fneg_on p : fon p -> fon (fneg p).
Proof. apply (pneg_on _ _ _ _ _ _ _ _ _ Fp_field). Qed.

Theorem fadd_fneg p : fon p -> fadd p (fneg p) = Inf.
Proof. apply (padd_pneg _ _ _ _ _ _ _ _ _ Fp_field Fp_dec Fp_char Fp_no_root). Qed.

Lemma fadd_cancel_r p q r : fon p -> fon q -> fon r -> fadd p r = fadd q r -> p = q.
Proof. apply (padd_cancel_r _ _ _ _ _ _ _ _ _ Fp_field Fp_dec Fp_char Fp_no_root). Qed.

Lemma fmul_mult a b p : fon p -> fmul (a * b) p = fmul a (fmul b p).
Proof. apply (nmul_mult _ _ _ _ _ _ _ _ _ Fp_field Fp_dec Fp_char Fp_no_root). Qed.

Lemma fmul_inf n : fmul n Inf = Inf.
Proof. apply nmul_inf. Qed.

Lemma fadd_inf_r p : fadd p Inf = p.
Proof. apply padd_inf_r. Qed.

Lemma fon_same_abscissa a b b' :
  fon (Aff a b) -> fon (Aff a b') -> b' = b \/ b' = Zmod.opp b.
Proof. apply (same_abscissa _ _ _ _ _ _ _ _ _ Fp_field Fp_dec). Qed.

Lemma fadd_double_slope a b s :
  fon (Aff a b) ->
  Zmod.mul s (Zmod.mul (fnum 2) b) = Zmod.mul (Zmod.mul (fnum 3) a) a ->
  fadd (Aff a b) (Aff a b) =
  Aff (Zmod.sub (Zmod.sub (Zmod.mul s s) a) a)
      (Zmod.sub (Zmod.mul s (Zmod.sub a (Zmod.sub (Zmod.sub (Zmod.mul s s) a) a))) b).
Proof. apply (padd_double_slope _ _ _ _ _ _ _ _ _ Fp_field Fp_dec Fp_char Fp_no_root). Qed.

Lemma fadd_add_slope x1 y1 x2 y2 s :
  x1 <> x2 -> Zmod.mul s (Zmod.sub x2 x1) = Zmod.sub y2 y1 ->
  fadd (Aff x1 y1) (Aff x2 y2) =
  Aff (Zmod.sub (Zmod.sub (Zmod.mul s s) x1) x2)
      (Zmod.sub (Zmod.mul s (Zmod.sub x1 (Zmod.sub (Zmod.sub (Zmod.mul s s) x1) x2))) y1).
Proof. apply (padd_add_slope _ _ _ _ _ _ _ _ _ Fp_field Fp_dec). Qed.

Lemma fadd_opposite a b b' :
  fon (Aff a b) -> Zmod.add b b' = Zmod.zero -> fadd (Aff a b) (Aff a b') = Inf.
Proof. apply (padd_opposite _ _ _ _ _ _ _ _ _ Fp_field Fp_dec Fp_char Fp_no_root). Qed.

(** ** From the program to the field and back *)

Lemma P_neq_0 : P <> 0.
Proof. pose proof P_pos. lia. Qed.

Ltac push_fof :=
  unfold fof;
  repeat first [rewrite Zmod.of_Z_mod | rewrite Zmod.of_Z_add | rewrite Zmod.of_Z_sub
               | rewrite Zmod.of_Z_mul].

Lemma fof_inj_reduced a b : 0 <= a < P -> 0 <= b < P -> fof a = fof b -> a = b.
Proof.
  intros Ha Hb H. apply Zmod.of_Z_inj in H.
  rewrite !Z.mod_small in H by assumption. exact H.
Qed.

Lemma to_Z_fof z : Zmod.to_Z (fof z) = z mod P.
Proof. apply Zmod.to_Z_of_Z. Qed.

Lemma fof_to_Z (a : Fp) : fof (Zmod.to_Z a) = a.
Proof. apply Zmod.of_Z_to_Z. Qed.

Lemma to_Z_range (a : Fp) : 0 <= Zmod.to_Z a < P.
Proof. apply Zmod.to_Z_pos_bound. exact P_pos. Qed.

Lemma fon_finite a b :
  fon (Aff (fof a) (fof b)) <-> (b * b) mod P = (a * a * a + B) mod P.
Proof.
  unfold fon, on. change (of_pos _ _ _ _ 7) with (fnum 7). rewrite fnum_of_Z.
  unfold fof, B. rewrite <- !Zmod.of_Z_mul, <- Zmod.of_Z_add.
  apply Zmod.of_Z_inj.
Qed.

Lemma new_Point_finite a b :
  new_Point (Some a) (Some b) =
  if (b * b) mod P =? (a * a * a + B) mod P
  then Ok (mkPoint (Some a) (Some b))
  else Raise (not_on_curve_error a b).
Proof.
  unfold new_Point, is_on_curve. cbn [is_infinity x y negb bind].
  destruct (_ =? _); [reflexivity|]. cbn [negb].
  unfold not_on_curve_msg, str_int, not_on_curve_error, not_on_curve_text.
  destruct (int_str_bound <=? Z.abs a); destruct (int_str_bound <=? Z.abs b);
    reflexivity.
Qed.

Lemma valid_inv p :
  valid p ->
  p = infinity \/
  exists a b, p = mkPoint (Some a) (Some b) /\ (b * b) mod P = (a * a * a + B) mod P.
Proof.
  destruct p as [[a|] [b|]]; unfold valid; cbn [x y].
  - rewrite new_Point_finite. destruct (Z.eqb_spec ((b * b) mod P) ((a * a * a + B) mod P)).
    + intros _. right. exists a, b. split; [reflexivity|assumption].
    + discriminate.
  - discriminate.
  - discriminate.
  - intros _. left. reflexivity.
Qed.

Lemma valid_infinity : valid infinity.
Proof. reflexivity. Qed.

Lemma valid_finite a b :
  (b * b) mod P = (a * a * a + B) mod P -> valid (mkPoint (Some a) (Some b)).
Proof.
  intros H. unfold valid. cbn [x y]. rewrite new_Point_finite.
  apply Z.eqb_eq in H. rewrite H. reflexivity.
Qed.

Lemma valid_to_pt p : valid p -> fon (to_pt p).
Proof.
  intros H. destruct (valid_inv p H) as [->|(a & b & -> & Hc)].
  - exact I.
  - apply fon_finite. exact Hc.
Qed.

Lemma of_pt_valid q : fon q -> valid (of_pt q) /\ reduced (of_pt q).
Proof.
  destruct q as [|a b]; intros H.
  - split; [reflexivity|exact I].
  - split.
    + apply valid_finite. apply fon_finite. rewrite !fof_to_Z. exact H.
    + split; apply to_Z_range.
Qed.

Lemma of_to_pt p : valid p -> reduced p -> of_pt (to_pt p) = p.
Proof.
  intros H Hr. destruct (valid_inv p H) as [->|(a & b & -> & Hc)].
  - reflexivity.
  - destruct Hr as [Ha Hb]. unfold to_pt, of_pt. cbn [x y].
    rewrite !to_Z_fof, !Z.mod_small by assumption. reflexivity.
Qed.

Lemma to_of_pt q : to_pt (of_pt q) = q.
Proof.
  destruct q as [|a b]; [reflexivity|].
  unfold to_pt, of_pt. cbn [x y]. rewrite !fof_to_Z. reflexivity.
Qed.

(** [mod_inverse] computes the inverse of the field. *)
Lemma mod_inverse_field a :
  a mod P <> 0 ->
  exists i, mod_inverse a P = Ok i /\ 0 <= i < P /\ fof i = Zmod.inv (fof a).
Proof.
  intros Ha.
  destruct (mod_inverse_spec a P P_pos) as (i & Hi & Hrange & Hmul).
  exists i. split; [exact Hi|]. split; [exact Hrange|].
  assert (Hg : Z.gcd a P = 1).
  { rewrite Z.gcd_comm. apply Z.coprime_prime_l; [exact P_prime|].
    intros Hd. apply Ha. apply Z.mod_divide; [exact P_neq_0|exact Hd]. }
  rewrite Hg in Hmul.
  assert (Hone : Zmod.mul (fof a) (fof i) = Zmod.one).
  { unfold fof. rewrite <- Zmod.of_Z_mul, <- Zmod.of_Z_1.
    apply Zmod.of_Z_inj. exact Hmul. }
  assert (Hnz : fof a <> Zmod.zero) by (rewrite fof_zero_iff; exact Ha).
  rewrite <- (Zmod.mul_1_l (fof i)).
  rewrite <- (Zmod.mul_inv_same_l_prime (fof a) P_prime Hnz).
  rewrite <- Zmod.mul_assoc, Hone. apply Zmod.mul_1_r.
Qed.

Lemma valid_y_nz a b : (b * b) mod P = (a * a * a + B) mod P -> b mod P <> 0.
Proof.
  intros H Hb. apply (no_cube_root a). rewrite <- H.
  rewrite Z.mul_mod, Hb by exact P_neq_0. reflexivity.
Qed.

Lemma double_y_nz a b : (b * b) mod P = (a * a * a + B) mod P -> (2 * b) mod P <> 0.
Proof.
  intros H Hd. apply (valid_y_nz a b H).
  apply Z.mod_divide in Hd; [|exact P_neq_0].
  apply Z.mod_divide; [exact P_neq_0|].
  apply Z.gauss with (m := 2); [exact Hd|].
  apply Z.coprime_prime_l; [exact P_prime|].
  intros Hd2. apply Z.divide_pos_le in Hd2; [|lia]. pose proof P_large. lia.
Qed.

Theorem point_add_field p1 p2 :
  valid p1 -> reduced p1 -> valid p2 -> reduced p2 ->
  point_add p1 p2 = Ok (of_pt (fadd (to_pt p1) (to_pt p2))).
Proof.
  intros V1 R1 V2 R2.
  destruct (valid_inv p1 V1) as [->|(a1 & b1 & -> & C1)].
  { unfold point_add. cbn [is_infinity infinity x y].
    fold (valid p2). rewrite V2.
    change (fadd (to_pt infinity) (to_pt p2)) with (to_pt p2).
    rewrite of_to_pt by assumption. reflexivity. }
  destruct (valid_inv p2 V2) as [->|(a2 & b2 & -> & C2)].
  { unfold point_add. cbn [is_infinity infinity x y].
    pose proof (valid_finite a1 b1 C1) as E. unfold valid in E. cbn [x y] in E.
    rewrite E. rewrite fadd_inf_r.
    rewrite of_to_pt by assumption. reflexivity. }
  destruct R1 as [Ra1 Rb1], R2 as [Ra2 Rb2]. cbn [x y] in *.
  pose proof (valid_to_pt _ V1) as O1. pose proof (valid_to_pt _ V2) as O2.
  pose proof (fadd_on _ _ O1 O2) as O3.
  destruct (of_pt_valid _ O3) as [V3 _]. revert V3. clear O3.
  unfold point_add, to_pt, fadd, padd. cbn [is_infinity x y].
  destruct (Z.eqb_spec a1 a2) as [Ea|Na].
  - subst a2. destruct (Fp_dec (fof a1) (fof a1)) as [_|Nf]; [|congruence].
    destruct (Z.eqb_spec b1 b2) as [Eb|Nb].
    + subst b2. destruct (Fp_dec (fof b1) (fof b1)) as [_|Nf]; [|congruence].
      destruct (mod_inverse_field (2 * b1) (double_y_nz a1 b1 C1)) as (i & Hi & _ & Hinv).
      rewrite Hi. cbn [bind]. cbv zeta.
      change (of_pos _ _ _ _ 3) with (fnum 3). change (of_pos _ _ _ _ 2) with (fnum 2).
      rewrite !fnum_of_Z. unfold Zmod.mdiv.
      set (s := (3 * a1 * a1 * i) mod P).
      assert (Hs : Zmod.mul (Zmod.mul (Zmod.mul (fof 3) (fof a1)) (fof a1))
                     (Zmod.inv (Zmod.mul (fof 2) (fof b1))) = fof s).
      { unfold s.
        replace (Zmod.mul (fof 2) (fof b1)) with (fof (2 * b1))
          by (unfold fof; apply Zmod.of_Z_mul).
        rewrite <- Hinv. push_fof. reflexivity. }
      rewrite Hs. clear Hs.
      set (x3 := (s * s - a1 - a1) mod P).
      assert (Hx : Zmod.sub (Zmod.sub (Zmod.mul (fof s) (fof s)) (fof a1)) (fof a1) = fof x3).
      { unfold x3. push_fof. reflexivity. }
      rewrite Hx.
      set (y3 := (s * (a1 - x3) - b1) mod P).
      assert (Hy : Zmod.sub (Zmod.mul (fof s) (Zmod.sub (fof a1) (fof x3))) (fof b1) = fof y3).
      { unfold y3. push_fof. reflexivity. }
      rewrite Hy. cbn [of_pt]. rewrite !to_Z_fof.
      assert (Hx3 : x3 mod P = x3) by (unfold x3; apply Z.mod_mod; exact P_neq_0).
      assert (Hy3 : y3 mod P = y3) by (unfold y3; apply Z.mod_mod; exact P_neq_0).
      rewrite Hx3, Hy3. unfold valid. cbn [x y]. intros V3. exact V3.
    + destruct (Fp_dec (fof b1) (fof b2)) as [Ef|_].
      { exfalso. apply Nb. apply fof_inj_reduced; assumption. }
      cbn [bind of_pt]. reflexivity.
  - destruct (Fp_dec (fof a1) (fof a2)) as [Ef|_].
    { exfalso. apply Na. apply fof_inj_reduced; assumption. }
    assert (Hd : (a2 - a1) mod P <> 0).
    { intros Hz. apply Na. symmetry. apply fof_inj_reduced; try assumption.
      apply Zmod.of_Z_inj. apply Z.mod_divide in Hz; [|exact P_neq_0].
      destruct Hz as [k Hk]. replace a2 with (a1 + k * P) by lia.
      apply Z.mod_add. exact P_neq_0. }
    destruct (mod_inverse_field (a2 - a1) Hd) as (i & Hi & _ & Hinv).
    rewrite Hi. cbn [bind]. cbv zeta. unfold Zmod.mdiv.
    set (s := ((b2 - b1) * i) mod P).
    assert (Hs : Zmod.mul (Zmod.sub (fof b2) (fof b1))
                   (Zmod.inv (Zmod.sub (fof a2) (fof a1))) = fof s).
    { unfold s.
      replace (Zmod.sub (fof a2) (fof a1)) with (fof (a2 - a1))
        by (unfold fof; apply Zmod.of_Z_sub).
      rewrite <- Hinv. push_fof. reflexivity. }
    rewrite Hs. clear Hs.
    set (x3 := (s * s - a1 - a2) mod P).
    assert (Hx : Zmod.sub (Zmod.sub (Zmod.mul (fof s) (fof s)) (fof a1)) (fof a2) = fof x3).
    { unfold x3. push_fof. reflexivity. }
    rewrite Hx.
    set (y3 := (s * (a1 - x3) - b1) mod P).
    assert (Hy : Zmod.sub (Zmod.mul (fof s) (Zmod.sub (fof a1) (fof x3))) (fof b1) = fof y3).
    { unfold y3. push_fof. reflexivity. }
    rewrite Hy. cbn [of_pt]. rewrite !to_Z_fof.
    assert (Hx3 : x3 mod P = x3) by (unfold x3; apply Z.mod_mod; exact P_neq_0).
    assert (Hy3 : y3 mod P = y3) by (unfold y3; apply Z.mod_mod; exact P_neq_0).
    rewrite Hx3, Hy3. unfold valid. cbn [x y]. intros V3. exact V3.
Qed.

(** ** Double-and-add *)

Lemma point_add_of_pt q1 q2 :
  fon q1 -> fon q2 -> point_add (of_pt q1) (of_pt q2) = Ok (of_pt (fadd q1 q2)).
Proof.
  intros H1 H2.
  destruct (of_pt_valid q1 H1) as [V1 R1]. destruct (of_pt_valid q2 H2) as [V2 R2].
  rewrite point_add_field by assumption. rewrite !to_of_pt. reflexivity.
Qed.

Lemma naive_multiply_field n p :
  valid p -> reduced p -> naive_multiply n p = Ok (of_pt (fmul n (to_pt p))).
Proof.
  intros V R. induction n as [|n IH]; [reflexivity|].
  cbn [naive_multiply]. rewrite IH. cbn [bind].
  transitivity (point_add (of_pt (fmul n (to_pt p))) (of_pt (to_pt p))).
  { rewrite (of_to_pt p V R). reflexivity. }
  apply point_add_of_pt; [apply fmul_on|]; apply valid_to_pt; exact V.
Qed.

Lemma fmul_1 q : fmul 1 q = q.
Proof. reflexivity. Qed.

Lemma land_1_parity k : Z.land k 1 = k mod 2.
Proof. change 1 with (Z.ones 1). rewrite Z.land_ones by lia. reflexivity. Qed.

Lemma loop_field fuel : forall k R A,
  fon R -> fon A -> 0 <= k < 2 ^ Z.of_nat fuel ->
  point_multiply_loop fuel k (of_pt R) (of_pt A) =
  Ok (of_pt (fadd R (fmul (Z.to_nat k) A))).
Proof.
  induction fuel as [|fuel IH]; intros k R A HR HA Hk.
  - assert (k = 0) as -> by (simpl in Hk; lia).
    cbn [point_multiply_loop Z.eqb Z.to_nat fmul nmul]. rewrite fadd_inf_r. reflexivity.
  - cbn [point_multiply_loop]. destruct (Z.eqb_spec k 0) as [->|Hnz].
    { cbn [Z.to_nat fmul nmul]. rewrite fadd_inf_r. reflexivity. }
    rewrite Nat2Z.inj_succ, Z.pow_succ_r in Hk by lia.
    rewrite land_1_parity, Z.shiftr_div_pow2 by lia. change (2 ^ 1) with 2.
    pose proof (Z.div_mod k 2 ltac:(lia)) as Hdm.
    pose proof (Z.mod_pos_bound k 2 ltac:(lia)) as Hb.
    assert (Hk2 : 0 <= k / 2 < 2 ^ Z.of_nat fuel).
    { split; [apply Z.div_pos; lia|apply Z.div_lt_upper_bound; lia]. }
    pose proof (fadd_on _ _ HA HA) as HAA.
    rewrite (point_add_of_pt A A HA HA).
    destruct (Z.eqb_spec (k mod 2) 0) as [Hev|Hodd].
    + cbn [bind]. rewrite (IH (k / 2) R (fadd A A) HR HAA Hk2).
      rewrite fmul_double by assumption.
      replace (2 * Z.to_nat (k / 2))%nat with (Z.to_nat k) by lia. reflexivity.
    + rewrite (point_add_of_pt R A HR HA). cbn [bind].
      rewrite (IH (k / 2) (fadd R A) (fadd A A) (fadd_on _ _ HR HA) HAA Hk2).
      rewrite fmul_double by assumption.
      replace (Z.to_nat k) with (1 + 2 * Z.to_nat (k / 2))%nat by lia.
      rewrite (fmul_plus 1) by assumption. rewrite fmul_1.
      rewrite fadd_assoc; [reflexivity|assumption|assumption|].
      apply fmul_on. assumption.
Qed.

Theorem point_multiply_field k p :
  0 <= k -> valid p -> reduced p ->
  point_multiply k p = Ok (of_pt (fmul (Z.to_nat k) (to_pt p))).
Proof.
  intros Hk V R. unfold point_multiply.
  destruct (Z.eqb_spec k 0) as [->|H0]; [reflexivity|].
  destruct (Z.eqb_spec k 1) as [->|H1].
  { fold (valid p). rewrite V. change (Z.to_nat 1) with 1%nat.
    rewrite fmul_1, of_to_pt by assumption. reflexivity. }
  change (new_Point None None) with (Ok infinity). cbn [bind].
  fold (valid p). rewrite V. cbn [bind].
  transitivity (point_multiply_loop (point_multiply_fuel k) k
                  (of_pt Inf) (of_pt (to_pt p))).
  { rewrite (of_to_pt p V R). reflexivity. }
  rewrite loop_field.
  - reflexivity.
  - exact I.
  - apply valid_to_pt. exact V.
  - split; [lia|]. unfold point_multiply_fuel.
    rewrite Nat2Z.inj_succ, Z2Nat.id by apply Z.log2_nonneg.
    apply Z.log2_spec. lia.
Qed.

(** * Part III: the claims of the specification *)

Ltac by_computation := vm_compute; first [reflexivity | intro; discriminate].
Ltac in_range := vm_compute; repeat split; first [reflexivity | intro; discriminate].

Lemma valid_G : valid G.
Proof. by_computation. Qed.

Lemma reduced_G : reduced G.
Proof. in_range. Qed.

Lemma valid_on_curve p : valid p -> is_on_curve p = Ok true.
Proof.
  intros V. destruct (valid_inv p V) as [->|(a & b & -> & Hc)]; [reflexivity|].
  unfold is_on_curve. cbn [is_infinity x y].
  apply Z.eqb_eq in Hc. rewrite Hc. reflexivity.
Qed.

(** ** C1: closure of point addition *)

Lemma point_add_G_xshift_raises : returned (point_add G G_xshift) = false.
Proof. by_computation. Qed.

(** C1, as stated, fails: [G] and [G_xshift] both pass the constructor, yet
    [point_add G G_xshift] raises instead of returning a point. *)
Lemma point_add_not_total :
  valid G /\ valid G_xshift /\
  ~ (exists r, point_add G G_xshift = Ok r /\ is_on_curve r = Ok true).
Proof.
  split; [by_computation|]. split; [by_computation|].
  intros (r & Hr & _). pose proof point_add_G_xshift_raises as H.
  rewrite Hr in H. discriminate.
Qed.

(** C1 (amended): for valid points whose coordinates lie in [[0, P)],
    [point_add] returns a point without raising, and the returned point
    satisfies [is_on_curve]; it is again valid with coordinates in
    [[0, P)]. *)
Theorem point_add_closed p1 p2 :
  valid p1 -> reduced p1 -> valid p2 -> reduced p2 ->
  exists r, point_add p1 p2 = Ok r /\ is_on_curve r = Ok true /\
            valid r /\ reduced r.
Proof.
  intros V1 R1 V2 R2.
  exists (of_pt (fadd (to_pt p1) (to_pt p2))).
  split; [apply point_add_field; assumption|].
  destruct (of_pt_valid (fadd (to_pt p1) (to_pt p2))) as [V R].
  { apply fadd_on; apply valid_to_pt; assumption. }
  split; [apply valid_on_curve; exact V|]. split; assumption.
Qed.

Lemma point_add_closed_witness :
  exists r, point_add G G = Ok r /\ is_on_curve r = Ok true /\
            valid r /\ reduced r.
Proof.
  apply (point_add_closed G G); [by_computation|in_range|by_computation|in_range].
Defined.

(** ** C3: the modular inverse *)

(** C3, as stated, fails for the modulus 1: no residue is equal to 1
    modulo 1. *)
Lemma mod_inverse_modulus_one :
  0 < 1 /\ Z.gcd 0 1 = 1 /\
  ~ (exists b, mod_inverse 0 1 = Ok b /\ 0 <= b < 1 /\ (0 * b) mod 1 = 1).
Proof.
  split; [reflexivity|]. split; [reflexivity|].
  intros (b & _ & _ & H). rewrite Z.mod_1_r in H. discriminate.
Qed.

(** C3 (amended): for [m > 0] and [gcd a m = 1], [mod_inverse a m] returns
    [b] with [0 <= b < m] and [a * b] congruent to 1 modulo [m], that is
    [(a * b) mod m = 1 mod m]; the right-hand side is 1 as soon as
    [m > 1]. *)
Theorem mod_inverse_correct a m :
  0 < m -> Z.gcd a m = 1 ->
  exists b, mod_inverse a m = Ok b /\ 0 <= b < m /\
            (a * b) mod m = 1 mod m /\ (1 < m -> (a * b) mod m = 1).
Proof.
  intros Hm Hg. destruct (mod_inverse_spec a m Hm) as (b & Hb & Hr & Hmul).
  rewrite Hg in Hmul. exists b. repeat split; try assumption; try lia.
  intros H1. rewrite Hmul. apply Z.mod_1_l. exact H1.
Qed.

Lemma mod_inverse_correct_witness :
  exists b, mod_inverse 7 P = Ok b /\ 0 <= b < P /\
            (7 * b) mod P = 1 mod P /\ (1 < P -> (7 * b) mod P = 1).
Proof.
  apply (mod_inverse_correct 7 P); by_computation.
Defined.

(** ** C4: coordinates of constructed points *)

(** C4, as stated, fails: the constructor accepts [G_xshift], whose [x]
    is not below [P]. *)
Lemma constructed_point_not_reduced :
  exists a b p, new_Point (Some a) (Some b) = Ok p /\
                x p = Some a /\ y p = Some b /\
                ~ (0 <= a < P /\ 0 <= b < P).
Proof.
  exists (GX + P), GY, G_xshift.
  split; [by_computation|]. split; [reflexivity|]. split; [reflexivity|].
  intros [[_ H] _]. revert H. vm_compute. intros H. discriminate.
Qed.

(** C4 (amended): a successfully constructed non-infinity point carries
    exactly the coordinates it was given, which satisfy the curve equation
    modulo [P]; they are validated, not reduced, so the point has both
    coordinates in [[0, P)] exactly when the supplied coordinates have. *)
Theorem constructed_point_coordinates a b p :
  new_Point (Some a) (Some b) = Ok p ->
  x p = Some a /\ y p = Some b /\
  (b * b) mod P = (a * a * a + B) mod P /\
  (reduced p <-> 0 <= a < P /\ 0 <= b < P).
Proof.
  rewrite new_Point_finite.
  destruct (Z.eqb_spec ((b * b) mod P) ((a * a * a + B) mod P)) as [E|E];
    [|discriminate].
  intros H. injection H as <-. cbn [x y reduced].
  repeat split; try assumption; tauto.
Qed.

Lemma constructed_point_coordinates_witness :
  x G = Some GX /\ y G = Some GY /\
  (GY * GY) mod P = (GX * GX * GX + B) mod P /\
  (reduced G <-> 0 <= GX < P /\ 0 <= GY < P).
Proof.
  apply (constructed_point_coordinates GX GY G). by_computation.
Defined.

(** ** C5: validation at construction *)

Lemma int_str_bound_eq : int_str_bound = 10 ^ int_max_str_digits.
Proof. vm_compute. reflexivity. Qed.

Lemma int_limit_msg_differs a b : int_limit_msg <> not_on_curve_text a b.
Proof.
  unfold int_limit_msg, not_on_curve_text. cbn [append]. discriminate.
Qed.

Lemma raised_message_inj (T : Type) (s t : string) :
  @Raise T (ValueError s) = Raise (ValueError t) -> s = t.
Proof. intros H. injection H as H. exact H. Qed.

(** C5, as stated, fails: the pair [(2^14285, 1)] does not satisfy the
    curve equation, and the constructor raises, but what it raises is the
    error of the conversion of [2^14285], an integer of 4301 digits, to a
    string; that error carries no coordinates. *)
Lemma new_Point_error_without_coordinates :
  (10 ^ int_max_str_digits <= huge_abscissa) /\
  ((1 * 1) mod P
   <> (huge_abscissa * huge_abscissa * huge_abscissa + B) mod P) /\
  (new_Point (Some huge_abscissa) (Some 1)
   = Raise (ValueError int_limit_msg)) /\
  (new_Point (Some huge_abscissa) (Some 1)
   <> Raise (ValueError (not_on_curve_text huge_abscissa 1))).
Proof.
  assert (E : new_Point (Some huge_abscissa) (Some 1)
              = Raise (ValueError int_limit_msg)) by (vm_compute; reflexivity).
  split; [by_computation|]. split; [by_computation|]. split; [exact E|].
  rewrite E. intros H.
  exact (int_limit_msg_differs huge_abscissa 1
           (raised_message_inj Point _ _ H)).
Qed.

(** C5 (amended): with both coordinates supplied, the constructor raises a
    [ValueError] exactly when [y^2 <> x^3 + 7] modulo [P]; when moreover
    both coordinates have at most 4300 decimal digits, the message of that
    error is the one that carries the two coordinates; when the congruence
    holds, the constructor returns the point, on which [is_on_curve]
    answers true. *)
Theorem new_Point_validates a b :
  ((exists msg, new_Point (Some a) (Some b) = Raise (ValueError msg))
   <-> (b * b) mod P <> (a * a * a + B) mod P) /\
  ((b * b) mod P <> (a * a * a + B) mod P ->
   Z.abs a < 10 ^ int_max_str_digits -> Z.abs b < 10 ^ int_max_str_digits ->
   new_Point (Some a) (Some b) = Raise (ValueError (not_on_curve_text a b))) /\
  ((b * b) mod P = (a * a * a + B) mod P ->
   new_Point (Some a) (Some b) = Ok (mkPoint (Some a) (Some b)) /\
   is_on_curve (mkPoint (Some a) (Some b)) = Ok true).
Proof.
  rewrite new_Point_finite. unfold is_on_curve, not_on_curve_error.
  cbn [is_infinity x y].
  destruct (Z.eqb_spec ((b * b) mod P) ((a * a * a + B) mod P)) as [E|E].
  - split; [split; [intros [msg H]; discriminate|contradiction]|].
    split; [contradiction|]. intros _. split; reflexivity.
  - split; [|split; [|contradiction]].
    + split; [intros _; exact E|]. intros _.
      destruct (_ || _); eexists; reflexivity.
    + intros _ Ha Hb.
      rewrite <- int_str_bound_eq in Ha, Hb.
      destruct (Z.leb_spec int_str_bound (Z.abs a)) as [La|_]; [lia|].
      destruct (Z.leb_spec int_str_bound (Z.abs b)) as [Lb|_]; [lia|].
      reflexivity.
Qed.

Lemma new_Point_validates_witness :
  new_Point (Some 1) (Some 1) = Raise (ValueError (not_on_curve_text 1 1)) /\
  new_Point (Some GX) (Some GY) = Ok G /\ is_on_curve G = Ok true.
Proof.
  split.
  - apply (proj1 (proj2 (new_Point_validates 1 1)));
      vm_compute; first [reflexivity | intro; discriminate].
  - apply (proj2 (proj2 (new_Point_validates GX GY))). by_computation.
Defined.

(** ** C6: associativity *)

(** C6, as stated, fails: [G_yshift] is accepted by the constructor, and
    with it the two ways of adding [G], [G_yshift] and [2G] both return,
    but different points ([2G] and [4G]). *)
Lemma point_add_not_associative :
  valid G /\ valid G_yshift /\ valid G2 /\
  exists pq qr l r,
    point_add G G_yshift = Ok pq /\ point_add pq G2 = Ok l /\
    point_add G_yshift G2 = Ok qr /\ point_add G qr = Ok r /\ l <> r.
Proof.
  split; [by_computation|]. split; [by_computation|]. split; [by_computation|].
  exists infinity, (value_or infinity (point_add G_yshift G2)), G2, G4.
  split; [by_computation|]. split; [by_computation|].
  split; [by_computation|]. split; [by_computation|].
  vm_compute. intros H. discriminate.
Qed.

(** C6 (amended): for valid points whose coordinates lie in [[0, P)],
    both ways of adding three points return, and return the same point. *)
Theorem point_add_assoc p q r :
  valid p -> reduced p -> valid q -> reduced q -> valid r -> reduced r ->
  exists pq qr s,
    point_add p q = Ok pq /\ point_add q r = Ok qr /\
    point_add pq r = Ok s /\ point_add p qr = Ok s.
Proof.
  intros Vp Rp Vq Rq Vr Rr.
  pose proof (valid_to_pt p Vp) as Op. pose proof (valid_to_pt q Vq) as Oq.
  pose proof (valid_to_pt r Vr) as Or.
  exists (of_pt (fadd (to_pt p) (to_pt q))), (of_pt (fadd (to_pt q) (to_pt r))),
         (of_pt (fadd (fadd (to_pt p) (to_pt q)) (to_pt r))).
  split; [apply point_add_field; assumption|].
  split; [apply point_add_field; assumption|].
  split.
  - rewrite <- (of_to_pt r Vr Rr) at 1.
    apply point_add_of_pt; [apply fadd_on|]; assumption.
  - rewrite fadd_assoc by assumption.
    rewrite <- (of_to_pt p Vp Rp) at 1.
    apply point_add_of_pt; [|apply fadd_on]; assumption.
Qed.

Lemma point_add_assoc_witness :
  exists pq qr s,
    point_add G G2 = Ok pq /\ point_add G2 G4 = Ok qr /\
    point_add pq G4 = Ok s /\ point_add G qr = Ok s.
Proof.
  apply (point_add_assoc G G2 G4);
    [by_computation|in_range|by_computation|in_range|by_computation|in_range].
Defined.

(** ** C7: commutativity *)

(** C7, as stated, fails: [G] and [G_opp_xshift] both pass the
    constructor, but neither order of addition returns a point, and the
    two calls do not even fail alike (the errors name different
    coordinates). *)
Lemma point_add_not_commutative :
  valid G /\ valid G_opp_xshift /\
  returned (point_add G G_opp_xshift) = false /\
  point_add G G_opp_xshift <> point_add G_opp_xshift G.
Proof.
  split; [by_computation|]. split; [by_computation|]. split; [by_computation|].
  vm_compute. intros H. discriminate.
Qed.

(** C7 (amended): for valid points whose coordinates lie in [[0, P)],
    [point_add] returns the same point in both orders. *)
Theorem point_add_comm p q :
  valid p -> reduced p -> valid q -> reduced q ->
  exists r, point_add p q = Ok r /\ point_add q p = Ok r.
Proof.
  intros Vp Rp Vq Rq. exists (of_pt (fadd (to_pt p) (to_pt q))).
  split; [apply point_add_field; assumption|].
  rewrite fadd_comm. apply point_add_field; assumption.
Qed.

Lemma point_add_comm_witness :
  exists r, point_add G G2 = Ok r /\ point_add G2 G = Ok r.
Proof.
  apply (point_add_comm G G2); [by_computation|in_range|by_computation|in_range].
Defined.

(** ** C8: a point plus its negation *)

Lemma negated_y_on_curve a b :
  (b * b) mod P = (a * a * a + B) mod P ->
  (((P - b) mod P) * ((P - b) mod P)) mod P = (a * a * a + B) mod P.
Proof.
  intros H. rewrite <- H, <- Z.mul_mod by exact P_neq_0.
  replace ((P - b) * (P - b)) with (b * b + (P - 2 * b) * P) by ring.
  apply Z.mod_add. exact P_neq_0.
Qed.

Lemma negated_y_differs a b :
  (b * b) mod P = (a * a * a + B) mod P -> b <> (P - b) mod P.
Proof.
  intros H E. apply (double_y_nz a b H).
  replace (2 * b) with (b + b) by ring.
  rewrite E at 1. rewrite Z.add_mod_idemp_l by exact P_neq_0.
  replace (P - b + b) with P by ring. apply Z.mod_same. exact P_neq_0.
Qed.

(** C8: for every finite point [(a, b)] the constructor accepts, the point
    [(a, (P - b) mod P)] is accepted as well, and adding the two gives the
    point at infinity. *)
Theorem point_add_negation a b p :
  new_Point (Some a) (Some b) = Ok p ->
  exists q, new_Point (Some a) (Some ((P - b) mod P)) = Ok q /\
            point_add p q = Ok infinity.
Proof.
  intros Hp. destruct (constructed_point_coordinates a b p Hp) as (_ & _ & C & _).
  rewrite new_Point_finite in Hp. apply Z.eqb_eq in C. rewrite C in Hp.
  apply Z.eqb_eq in C. injection Hp as <-.
  exists (mkPoint (Some a) (Some ((P - b) mod P))). split.
  - rewrite new_Point_finite.
    pose proof (negated_y_on_curve a b C) as C'. apply Z.eqb_eq in C'.
    rewrite C'. reflexivity.
  - unfold point_add. cbn [is_infinity x y]. rewrite Z.eqb_refl.
    destruct (Z.eqb_spec b ((P - b) mod P)) as [E|_]; [|reflexivity].
    exfalso. exact (negated_y_differs a b C E).
Qed.

Lemma point_add_negation_witness :
  exists q, new_Point (Some GX) (Some ((P - GY) mod P)) = Ok q /\
            point_add G q = Ok infinity.
Proof.
  apply (point_add_negation GX GY G). by_computation.
Defined.

(** ** C9: normalisation of the argument of the modular inverse *)

Lemma inverse_unique a m b1 b2 :
  0 < m -> 0 <= b1 < m -> 0 <= b2 < m ->
  (a * b1) mod m = 1 mod m -> (a * b2) mod m = 1 mod m -> b1 = b2.
Proof.
  intros Hm H1 H2 E1 E2.
  assert (Hb1 : b1 = (b1 * (a * b2)) mod m).
  { rewrite <- Z.mul_mod_idemp_r, E2, Z.mul_mod_idemp_r, Z.mul_1_r by lia.
    symmetry. apply Z.mod_small. exact H1. }
  assert (Hb2 : b2 = ((a * b1) * b2) mod m).
  { rewrite <- Z.mul_mod_idemp_l, E1, Z.mul_mod_idemp_l, Z.mul_1_l by lia.
    symmetry. apply Z.mod_small. exact H2. }
  etransitivity; [exact Hb1|]. etransitivity; [|symmetry; exact Hb2].
  f_equal. ring.
Qed.

(** C9: for [m > 0] and [gcd a m = 1], [mod_inverse] gives the same
    result on [a] and on its normal form [((a mod m) + m) mod m], and that
    result is a returned value. *)
Theorem mod_inverse_normalizes a m :
  0 < m -> Z.gcd a m = 1 ->
  mod_inverse a m = mod_inverse ((a mod m + m) mod m) m /\
  returned (mod_inverse a m) = true.
Proof.
  intros Hm Hg. set (a' := (a mod m + m) mod m).
  assert (Ha' : a' mod m = a mod m).
  { unfold a'. rewrite Z.mod_mod by lia.
    rewrite <- Z.add_mod_idemp_r, Z.mod_same, Z.add_0_r, Z.mod_mod by lia.
    reflexivity. }
  assert (Hg' : Z.gcd a' m = 1).
  { rewrite <- (Z.gcd_mod_l a' m), Ha', Z.gcd_mod_l. exact Hg. }
  destruct (mod_inverse_spec a m Hm) as (b1 & E1 & R1 & M1).
  destruct (mod_inverse_spec a' m Hm) as (b2 & E2 & R2 & M2).
  rewrite Hg in M1. rewrite Hg' in M2. rewrite E1, E2.
  split; [|reflexivity]. f_equal.
  apply (inverse_unique a m); try assumption.
  rewrite <- Z.mul_mod_idemp_l, <- Ha', Z.mul_mod_idemp_l by lia. exact M2.
Qed.

Lemma mod_inverse_normalizes_witness :
  mod_inverse (-7) P = mod_inverse (((-7) mod P + P) mod P) P /\
  returned (mod_inverse (-7) P) = true.
Proof.
  apply (mod_inverse_normalizes (-7) P); by_computation.
Defined.

(** ** C10: the inverse of zero *)

Lemma mod_inverse_loop_done fuel old_r old_s s :
  mod_inverse_loop fuel old_r 0 old_s s = Ok old_s.
Proof. destruct fuel; reflexivity. Qed.

(** C10: for every modulus [m > 1], [mod_inverse 0 m] returns 0 and raises
    nothing, although [0 * 0] is not 1 modulo [m]. *)
Theorem mod_inverse_zero m :
  1 < m -> mod_inverse 0 m = Ok 0 /\ (0 * 0) mod m <> 1.
Proof.
  intros Hm. split.
  - unfold mod_inverse, mod_inverse_fuel.
    destruct (Z.eqb_spec m 0) as [E|_]; [lia|].
    change (0 <? 0) with false. cbv iota.
    rewrite loop_unfold. destruct (Z.eqb_spec m 0) as [E|_]; [lia|].
    rewrite Z.div_0_l by lia.
    replace (0 - 0 * m) with 0 by ring.
    rewrite mod_inverse_loop_done. cbn [bind].
    rewrite Z.mod_0_l by lia. reflexivity.
  - rewrite Z.mul_0_l, Z.mod_0_l by lia. discriminate.
Qed.

Lemma mod_inverse_zero_witness : mod_inverse 0 P = Ok 0 /\ (0 * 0) mod P <> 1.
Proof.
  apply (mod_inverse_zero P). by_computation.
Defined.

(** ** C2: scalar multiplication *)

(** C2 (for points with coordinates in [[0, P)]): for every [k >= 0],
    [point_multiply k p] returns, and returns what adding [p] into an
    accumulator [k] times, starting from infinity, returns; in particular
    [point_multiply 0 p] is the point at infinity and [point_multiply 1 p]
    is [p]. *)
Theorem point_multiply_naive k p :
  0 <= k -> valid p -> reduced p ->
  point_multiply k p = naive_multiply (Z.to_nat k) p /\
  returned (point_multiply k p) = true /\
  point_multiply 0 p = Ok infinity /\ point_multiply 1 p = Ok p.
Proof.
  intros Hk V R.
  rewrite (point_multiply_field k p Hk V R), naive_multiply_field by assumption.
  split; [reflexivity|]. split; [reflexivity|]. split; [reflexivity|].
  rewrite (point_multiply_field 1 p) by (assumption || lia).
  change (Z.to_nat 1) with 1%nat. rewrite fmul_1, of_to_pt by assumption.
  reflexivity.
Qed.

Lemma point_multiply_naive_witness :
  point_multiply 5 G = naive_multiply (Z.to_nat 5) G /\
  returned (point_multiply 5 G) = true /\
  point_multiply 0 G = Ok infinity /\ point_multiply 1 G = Ok G.
Proof.
  apply (point_multiply_naive 5 G); [by_computation|by_computation|in_range].
Defined.

(** ** C2 on a point that is not reduced

    The generator has prime order [N].  Adding [G_xshift] into an
    accumulator therefore walks through [2G, 3G, ...] without ever meeting
    a multiple with the abscissa of [G], until the accumulator is [-G]
    after [N - 1] additions; the next addition compares [x] as integers,
    does not recognise the opposite point, and raises.  The double-and-add
    loop never performs that addition and returns infinity. *)

Lemma prime_1871 : Z.prime 1871. Proof. prove_small_prime 42%nat. Qed.
Lemma prime_9349 : Z.prime 9349. Proof. prove_small_prime 95%nat. Qed.
Lemma prime_28181 : Z.prime 28181. Proof. prove_small_prime 166%nat. Qed.
Lemma prime_120233 : Z.prime 120233. Proof. prove_small_prime 345%nat. Qed.
#[local] Hint Resolve prime_1871 prime_9349 prime_28181 prime_120233 : primes.

Lemma prime_1627771 : Z.prime 1627771.
Proof. prove_pock (1871 :: nil). Qed.
Lemma prime_545358713 : Z.prime 545358713.
Proof. prove_pock (28181 :: nil). Qed.
Lemma prime_44706919 : Z.prime 44706919.
Proof. prove_pock (9349 :: nil). Qed.
#[local] Hint Resolve prime_1627771 prime_545358713 prime_44706919 : primes.
Lemma prime_297159362677 : Z.prime 297159362677.
Proof. prove_pock (1627771 :: nil). Qed.
#[local] Hint Resolve prime_297159362677 : primes.
Lemma prime_c29 : Z.prime 29047611873442575647497758179.
Proof. prove_pock [297159362677; 545358713]. Qed.
Lemma prime_c21 : Z.prime 174723607534414371449.
Proof. prove_pock [44706919; 120233]. Qed.
#[local] Hint Resolve prime_c29 prime_c21 : primes.
Lemma prime_c33 : Z.prime 341948486974166000522343609283189.
Proof. prove_pock (29047611873442575647497758179 :: nil). Qed.
#[local] Hint Resolve prime_c33 : primes.

Lemma N_prime : Z.prime N.
Proof.
  unfold N.
  prove_pock [341948486974166000522343609283189; 174723607534414371449].
Qed.

(** A point killed by a prime [n] is killed by no smaller positive scalar. *)
Lemma fmul_order_prime n g :
  Z.prime n -> fon g -> g <> Inf -> fmul (Z.to_nat n) g = Inf ->
  forall k, 0 < k < n -> fmul (Z.to_nat k) g <> Inf.
Proof.
  intros Hn Hg Hne Hord k Hk Hz.
  assert (Hc : Z.gcd k n = 1).
  { rewrite Z.gcd_comm. apply Z.coprime_prime_small; [exact Hn|lia]. }
  destruct (bezout_nonneg k n) as (u & v & Hu & Hv & E); [lia|lia|exact Hc|].
  apply Hne.
  assert (E1 : fmul (Z.to_nat (u * k)) g = Inf).
  { rewrite Z2Nat.inj_mul by lia. rewrite fmul_mult by exact Hg.
    rewrite Hz. apply fmul_inf. }
  assert (E2 : fmul (Z.to_nat (1 + v * n)) g = g).
  { rewrite Z2Nat.inj_add, Z2Nat.inj_mul by nia.
    rewrite fmul_plus, fmul_mult by exact Hg.
    rewrite Hord, fmul_inf. change (Z.to_nat 1) with 1%nat.
    rewrite fmul_1. apply fadd_inf_r. }
  rewrite <- E2, <- E. exact E1.
Qed.

Lemma Ok_inj (A : Type) (a b : A) : Ok a = Ok b -> a = b.
Proof. intros H. inversion H. reflexivity. Qed.

Lemma of_pt_infinity q : of_pt q = infinity -> q = Inf.
Proof. destruct q; [reflexivity|discriminate]. Qed.

Lemma fon_G : fon (to_pt G).
Proof. apply valid_to_pt. exact valid_G. Qed.

(** *** Soundness of the certified replay *)

Lemma fof_eq_of_sub u v : (u - v) mod P = 0 -> fof u = fof v.
Proof.
  intros H. apply Zmod.of_Z_inj.
  apply Z.mod_divide in H; [|exact P_neq_0]. destruct H as [k Hk].
  replace u with (v + k * P) by lia. apply Z.mod_add. exact P_neq_0.
Qed.

Lemma fof_neq_of_sub u v : (u - v) mod P <> 0 -> fof u <> fof v.
Proof.
  intros H E. apply H. apply Zmod.of_Z_inj in E.
  rewrite Zminus_mod, E, Z.sub_diag. apply Z.mod_0_l. exact P_neq_0.
Qed.

Lemma cert_double_sound A s A2 :
  fon (emb (Some A)) -> cert_double A s = Some A2 ->
  emb (Some A2) = fadd (emb (Some A)) (emb (Some A)).
Proof.
  destruct A as [xa ya]. unfold cert_double. cbn [emb]. intros Hon.
  destruct (Z.eqb_spec ((s * (2 * ya) - 3 * xa * xa) mod P) 0) as [E|_];
    [|discriminate].
  intros H. injection H as <-. cbn [emb].
  rewrite (fadd_double_slope (fof xa) (fof ya) (fof s) Hon).
  - f_equal; push_fof; reflexivity.
  - rewrite !fnum_of_Z. apply fof_eq_of_sub in E. revert E. push_fof.
    intros E. exact E.
Qed.

Lemma cert_add_sound R A s C :
  (fst A - fst R) mod P <> 0 -> cert_add R A s = Some C ->
  emb (Some C) = fadd (emb (Some R)) (emb (Some A)).
Proof.
  destruct R as [xr yr], A as [xa ya]. unfold cert_add. cbn [emb fst].
  intros Hd.
  destruct (Z.eqb_spec ((s * (xa - xr) - (ya - yr)) mod P) 0) as [E|_];
    [|discriminate].
  intros H. injection H as <-. cbn [emb].
  rewrite (fadd_add_slope (fof xr) (fof yr) (fof xa) (fof ya) (fof s)).
  - f_equal; push_fof; reflexivity.
  - intros Ex. apply (fof_neq_of_sub xa xr Hd). symmetry. exact Ex.
  - apply fof_eq_of_sub in E. revert E. push_fof. intros E. exact E.
Qed.

Lemma cert_sum_sound R A cert R' rest :
  fon (emb R) -> cert_sum R A cert = Some (R', rest) ->
  emb R' = fadd (emb R) (emb (Some A)).
Proof.
  destruct R as [r|]; cbn [cert_sum]; intros Hon.
  - destruct (Z.eqb_spec ((fst A - fst r) mod P) 0) as [Ex|Nx].
    + destruct (Z.eqb_spec ((snd r + snd A) mod P) 0) as [Ey|_]; [|discriminate].
      intros H. injection H as <- _. destruct r as [xr yr], A as [xa ya].
      cbn [emb fst snd] in *.
      apply fof_eq_of_sub in Ex. rewrite Ex. symmetry.
      apply fadd_opposite; [exact Hon|].
      rewrite <- (Z.sub_0_r (yr + ya)) in Ey.
      apply fof_eq_of_sub in Ey. revert Ey. push_fof. intros Ey.
      rewrite Ey. apply Zmod.of_Z_0.
    + destruct cert as [|s cert']; [discriminate|].
      destruct (cert_add r A s) as [c|] eqn:Ec; [|discriminate].
      intros H. injection H as <- _.
      apply (cert_add_sound r A s c Nx Ec).
  - intros H. injection H as <- _. reflexivity.
Qed.

Lemma fon_emb_sum R A R' :
  fon (emb R) -> fon (emb (Some A)) -> emb R' = fadd (emb R) (emb (Some A)) ->
  fon (emb R').
Proof. intros H1 H2 E. rewrite E. apply fadd_on; assumption. Qed.

Lemma cert_mul_sound k : forall R A cert R',
  fon (emb R) -> fon (emb (Some A)) -> cert_mul k R A cert = Some R' ->
  emb R' = fadd (emb R) (fmul (Pos.to_nat k) (emb (Some A))).
Proof.
  induction k as [k IH|k IH|]; intros R A cert R' HR HA; cbn [cert_mul].
  - destruct (cert_sum R A cert) as [[R1 [|s rest]]|] eqn:Es; try discriminate.
    destruct (cert_double A s) as [A2|] eqn:Ed; [|discriminate].
    intros Hm.
    pose proof (cert_sum_sound R A cert R1 _ HR Es) as E1.
    pose proof (cert_double_sound A s A2 HA Ed) as E2.
    rewrite (IH R1 A2 rest R' (fon_emb_sum R A R1 HR HA E1)
               ltac:(rewrite E2; apply fadd_on; exact HA) Hm).
    rewrite E1, E2, fmul_double by exact HA.
    rewrite Pos2Nat.inj_xI.
    replace (S (2 * Pos.to_nat k)) with (1 + 2 * Pos.to_nat k)%nat by lia.
    rewrite (fmul_plus 1) by exact HA. rewrite fmul_1.
    apply fadd_assoc; [exact HR|exact HA|apply fmul_on; exact HA].
  - destruct cert as [|s rest]; [discriminate|].
    destruct (cert_double A s) as [A2|] eqn:Ed; [|discriminate].
    intros Hm. pose proof (cert_double_sound A s A2 HA Ed) as E2.
    rewrite (IH R A2 rest R' HR ltac:(rewrite E2; apply fadd_on; exact HA) Hm).
    rewrite E2, fmul_double by exact HA. rewrite Pos2Nat.inj_xO. reflexivity.
  - destruct (cert_sum R A cert) as [[R1 rest]|] eqn:Es; [|discriminate].
    cbn [option_map fst]. intros H. injection H as <-.
    rewrite Pos2Nat.inj_1, fmul_1. apply (cert_sum_sound R A cert R1 rest HR Es).
Qed.

(** The generator has order [N]: the replay of double-and-add on [N] and
    [G] with the recorded slopes ends at infinity. *)
Lemma order_certificate_ok :
  cert_mul (Z.to_pos N) None (GX, GY) order_certificate = Some None.
Proof. vm_cast_no_check (eq_refl (Some (@None (Z * Z)))). Qed.

Lemma to_nat_to_pos z : 0 < z -> Z.to_nat z = Pos.to_nat (Z.to_pos z).
Proof. destruct z; [lia|reflexivity|lia]. Qed.

Lemma fadd_inf_l q : fadd Inf q = q.
Proof. reflexivity. Qed.

Lemma emb_G : emb (Some (GX, GY)) = to_pt G.
Proof. reflexivity. Qed.

Lemma G_order : fmul (Z.to_nat N) (to_pt G) = Inf.
Proof.
  assert (Hon : fon (emb (Some (GX, GY)))) by (rewrite emb_G; exact fon_G).
  pose proof (cert_mul_sound (Z.to_pos N) None (GX, GY) order_certificate None
                I Hon order_certificate_ok) as H.
  rewrite emb_G in H. cbn [emb] in H. rewrite fadd_inf_l in H.
  rewrite (to_nat_to_pos N) by reflexivity.
  symmetry. exact H.
Qed.

Lemma point_multiply_N_G : point_multiply N G = Ok infinity.
Proof.
  rewrite point_multiply_field;
    [|vm_compute; intro; discriminate|exact valid_G|exact reduced_G].
  rewrite G_order. reflexivity.
Qed.

Lemma G_multiple_finite j :
  (0 < j)%nat -> Z.of_nat j < N -> fmul j (to_pt G) <> Inf.
Proof.
  intros H0 HN. rewrite <- (Nat2Z.id j).
  apply (fmul_order_prime N (to_pt G) N_prime fon_G); [discriminate|exact G_order|lia].
Qed.

Lemma G_multiple_not_G j :
  (2 <= j)%nat -> Z.of_nat j < N -> fmul j (to_pt G) <> to_pt G.
Proof.
  intros H2 HN E. destruct j as [|j]; [lia|].
  apply (G_multiple_finite j); [lia|lia|].
  apply (fadd_cancel_r _ _ (to_pt G)); [apply fmul_on; exact fon_G|exact I|exact fon_G|].
  exact E.
Qed.

Lemma G_multiple_not_opp j :
  Z.of_nat (S j) < N -> fmul j (to_pt G) <> fneg (to_pt G).
Proof.
  intros HN E. apply (G_multiple_finite (S j)); [lia|exact HN|].
  cbn [fmul nmul]. fold (fmul j (to_pt G)). fold (fadd (fmul j (to_pt G)) (to_pt G)).
  rewrite E, fadd_comm. apply fadd_fneg. exact fon_G.
Qed.

Lemma GX_range : 0 <= GX < P.
Proof. in_range. Qed.

Lemma mod_inverse_shift d : d mod P <> 0 -> mod_inverse (d + P) P = mod_inverse d P.
Proof.
  intros Hd.
  assert (Hs : (d + P) mod P = d mod P).
  { rewrite <- Z.add_mod_idemp_r, Z.mod_same, Z.add_0_r by exact P_neq_0.
    reflexivity. }
  assert (Hd' : (d + P) mod P <> 0) by (rewrite Hs; exact Hd).
  destruct (mod_inverse_field d Hd) as (i & Hi & Ri & Fi).
  destruct (mod_inverse_field (d + P) Hd') as (i' & Hi' & Ri' & Fi').
  rewrite Hi, Hi'. f_equal. apply fof_inj_reduced; try assumption.
  rewrite Fi, Fi'. f_equal. apply Zmod.of_Z_inj. exact Hs.
Qed.

(** Away from [G] and [-G], adding [G_xshift] is adding [G]. *)
Lemma point_add_xshift q :
  fon q -> q <> Inf -> q <> to_pt G -> q <> fneg (to_pt G) ->
  point_add (of_pt q) G_xshift = point_add (of_pt q) G.
Proof.
  intros Hq Hinf Hg Hng. destruct q as [|a b]; [congruence|].
  assert (Ha : a <> fof GX).
  { intros ->. destruct (fon_same_abscissa (fof GX) (fof GY) b fon_G Hq) as [E|E].
    - apply Hg. rewrite E. reflexivity.
    - apply Hng. rewrite E. reflexivity. }
  pose proof (to_Z_range a) as Ra. pose proof GX_range as Rg.
  assert (HA : Zmod.to_Z a <> GX).
  { intros E. apply Ha. rewrite <- E. symmetry. apply fof_to_Z. }
  assert (Hd : (GX - Zmod.to_Z a) mod P <> 0).
  { intros Hz. apply HA. symmetry. apply fof_inj_reduced; try assumption.
    apply Zmod.of_Z_inj. apply Z.mod_divide in Hz; [|exact P_neq_0].
    destruct Hz as [k Hk]. replace GX with (Zmod.to_Z a + k * P) by lia.
    apply Z.mod_add. exact P_neq_0. }
  unfold point_add, G_xshift, G. cbn [of_pt is_infinity x y].
  destruct (Z.eqb_spec (Zmod.to_Z a) (GX + P)) as [E|_]; [lia|].
  destruct (Z.eqb_spec (Zmod.to_Z a) GX) as [E|_]; [contradiction|].
  replace (GX + P - Zmod.to_Z a) with (GX - Zmod.to_Z a + P) by ring.
  rewrite (mod_inverse_shift _ Hd).
  destruct (mod_inverse (GX - Zmod.to_Z a) P) as [i| |]; cbn [bind]; try reflexivity.
  set (s := ((GY - Zmod.to_Z b) * i) mod P).
  replace ((s * s - Zmod.to_Z a - (GX + P)) mod P)
    with ((s * s - Zmod.to_Z a - GX) mod P); [reflexivity|].
  replace (s * s - Zmod.to_Z a - (GX + P))
    with (s * s - Zmod.to_Z a - GX + (-1) * P) by ring.
  symmetry. apply Z.mod_add. exact P_neq_0.
Qed.

Lemma of_pt_to_pt_G : of_pt (to_pt G) = G.
Proof. apply of_to_pt; [exact valid_G|exact reduced_G]. Qed.

Lemma naive_xshift_two : naive_multiply 2 G_xshift = Ok (of_pt (fmul 2 (to_pt G))).
Proof.
  assert (E : point_multiply 2 G = Ok (of_pt (fmul 2 (to_pt G)))).
  { apply (point_multiply_field 2 G); [lia|exact valid_G|exact reduced_G]. }
  rewrite <- E. by_computation.
Qed.

Lemma naive_xshift_track j :
  (2 <= j)%nat -> Z.of_nat j < N ->
  naive_multiply j G_xshift = Ok (of_pt (fmul j (to_pt G))).
Proof.
  induction 1 as [|j Hj IH]; intros HN; [exact naive_xshift_two|].
  cbn [naive_multiply]. rewrite IH by lia. cbn [bind].
  pose proof (fmul_on j (to_pt G) fon_G) as Hon.
  rewrite (point_add_xshift (fmul j (to_pt G)) Hon
             (G_multiple_finite j ltac:(lia) ltac:(lia))
             (G_multiple_not_G j ltac:(lia) ltac:(lia))
             (G_multiple_not_opp j HN)).
  change (fmul (S j) (to_pt G)) with (fadd (fmul j (to_pt G)) (to_pt G)).
  rewrite <- (point_add_of_pt (fmul j (to_pt G)) (to_pt G) Hon fon_G).
  rewrite of_pt_to_pt_G. reflexivity.
Qed.

Lemma N_large : 3 < N.
Proof. reflexivity. Qed.

Lemma G_times_pred_N m :
  Z.of_nat (S m) = N -> fmul m (to_pt G) = fneg (to_pt G).
Proof.
  intros Hm.
  apply (fadd_cancel_r _ _ (to_pt G));
    [apply fmul_on; exact fon_G|apply fneg_on; exact fon_G|exact fon_G|].
  rewrite (fadd_comm (fneg (to_pt G))), fadd_fneg by exact fon_G.
  rewrite <- G_order, <- Hm, Nat2Z.id. reflexivity.
Qed.

Lemma opposite_plus_xshift_raises :
  returned (point_add (of_pt (fneg (to_pt G))) G_xshift) = false.
Proof. by_computation. Qed.

Lemma naive_xshift_last m :
  Z.of_nat (S m) = N -> returned (naive_multiply (S m) G_xshift) = false.
Proof.
  intros Hm. pose proof N_large.
  cbn [naive_multiply]. rewrite naive_xshift_track by lia. cbn [bind].
  rewrite (G_times_pred_N m Hm). exact opposite_plus_xshift_raises.
Qed.

Lemma naive_xshift_N_raises :
  returned (naive_multiply (Z.to_nat N) G_xshift) = false.
Proof.
  pose proof N_large.
  assert (Hm : Z.of_nat (S (Z.to_nat (N - 1))) = N) by lia.
  rewrite <- Hm at 1. rewrite Nat2Z.id. apply naive_xshift_last. exact Hm.
Qed.

(** *** The double-and-add loop on [N] and [G_xshift]

    The low bits of [N] are [1000001]: the first seven iterations are
    replayed on the concrete points; from then on the accumulator and the
    addend are reduced and the loop is the one of the field. *)

Lemma point_multiply_loop_step f k R A :
  point_multiply_loop (S f) k R A =
  if k =? 0 then Ok R
  else
    R' <- (if Z.land k 1 =? 0 then Ok R else point_add R A) ;;
    A' <- point_add A A ;;
    point_multiply_loop f (Z.shiftr k 1) R' A'.
Proof. reflexivity. Qed.

Ltac compute_subterm t :=
  let v := eval vm_compute in t in
  replace t with v by (vm_compute; reflexivity).

Lemma loop_step_clear f k R A A2 k' :
  (k =? 0) = false -> (Z.land k 1 =? 0) = true ->
  point_add A A = Ok A2 -> Z.shiftr k 1 = k' ->
  point_multiply_loop (S f) k R A = point_multiply_loop f k' R A2.
Proof.
  intros H0 H1 HA Hk. rewrite point_multiply_loop_step, H0, H1, HA, Hk.
  reflexivity.
Qed.

Lemma loop_step_set f k R A R2 A2 k' :
  (k =? 0) = false -> (Z.land k 1 =? 0) = false ->
  point_add R A = Ok R2 -> point_add A A = Ok A2 -> Z.shiftr k 1 = k' ->
  point_multiply_loop (S f) k R A = point_multiply_loop f k' R2 A2.
Proof.
  intros H0 H1 HR HA Hk. rewrite point_multiply_loop_step, H0, H1, HR, HA, Hk.
  reflexivity.
Qed.

Ltac replay_step :=
  match goal with
  | |- point_multiply_loop (S ?f) ?k ?R ?A = _ =>
      let b := eval vm_compute in (Z.land k 1 =? 0) in
      let k' := eval vm_compute in (Z.shiftr k 1) in
      let a2 := eval vm_compute in (point_add A A) in
      match a2 with
      | Ok ?A2 =>
          match b with
          | true =>
              rewrite (loop_step_clear f k R A A2 k') by (vm_compute; reflexivity)
          | false =>
              let r2 := eval vm_compute in (point_add R A) in
              match r2 with
              | Ok ?R2 =>
                  rewrite (loop_step_set f k R A R2 A2 k')
                    by (vm_compute; reflexivity)
              end
          end
      end
  end.

Lemma point_multiply_unfold k p :
  (k =? 0) = false -> (k =? 1) = false -> valid p ->
  point_multiply k p =
  point_multiply_loop (point_multiply_fuel k) k infinity p.
Proof.
  intros H0 H1 Hp. unfold point_multiply. rewrite H0, H1, Hp. reflexivity.
Qed.

Lemma fuel_N : point_multiply_fuel N = 256%nat.
Proof. vm_compute. reflexivity. Qed.

Lemma loop_prefix_xshift :
  point_multiply_loop 256 N infinity G_xshift =
  point_multiply_loop 249 (Z.shiftr N 7) G65 G128.
Proof.
  compute_subterm (Z.shiftr N 7). unfold N.
  do 7 replay_step. reflexivity.
Qed.

Lemma G65_field : G65 = of_pt (fmul (Z.to_nat 65) (to_pt G)).
Proof.
  apply Ok_inj.
  rewrite <- (point_multiply_field 65 G ltac:(lia) valid_G reduced_G).
  vm_compute. reflexivity.
Qed.

Lemma G128_field : G128 = of_pt (fmul (Z.to_nat 128) (to_pt G)).
Proof.
  apply Ok_inj.
  rewrite <- (point_multiply_field 128 G ltac:(lia) valid_G reduced_G).
  vm_compute. reflexivity.
Qed.

Lemma to_nat_split a b c n :
  0 <= a -> 0 <= b -> 0 <= c -> a + b * c = n ->
  (Z.to_nat a + Z.to_nat b * Z.to_nat c)%nat = Z.to_nat n.
Proof. intros Ha Hb Hc <-. nia. Qed.

Lemma N_split :
  (Z.to_nat 65 + Z.to_nat (Z.shiftr N 7) * Z.to_nat 128)%nat = Z.to_nat N.
Proof.
  apply (to_nat_split 65 (Z.shiftr N 7) 128 N);
    vm_compute; first [reflexivity | intro; discriminate].
Qed.

Lemma shifted_N_range : 0 <= Z.shiftr N 7 < 2 ^ Z.of_nat 249.
Proof. vm_compute. split; [intro; discriminate|reflexivity]. Qed.

Lemma fmul_split a b c p :
  fon p -> fadd (fmul a p) (fmul b (fmul c p)) = fmul (a + b * c) p.
Proof. intros Hp. rewrite <- fmul_mult, <- fmul_plus by exact Hp. reflexivity. Qed.

Lemma point_multiply_N_xshift : point_multiply N G_xshift = Ok infinity.
Proof.
  rewrite (point_multiply_unfold N G_xshift)
    by (vm_compute; reflexivity).
  rewrite fuel_N, loop_prefix_xshift, G65_field, G128_field.
  rewrite (loop_field 249 (Z.shiftr N 7) _ _
             (fmul_on (Z.to_nat 65) (to_pt G) fon_G)
             (fmul_on (Z.to_nat 128) (to_pt G) fon_G) shifted_N_range).
  rewrite (fmul_split (Z.to_nat 65) (Z.to_nat (Z.shiftr N 7)) (Z.to_nat 128)
             (to_pt G) fon_G).
  rewrite N_split.
  rewrite G_order.
  reflexivity.
Qed.

(** C2, as stated, fails: [G_xshift] passes the constructor, and
    [point_multiply N G_xshift] returns the point at infinity, whereas
    adding [G_xshift] into an accumulator [N] times raises at the last
    addition. *)
Lemma point_multiply_not_naive :
  0 <= N /\ valid G_xshift /\
  point_multiply N G_xshift = Ok infinity /\
  returned (naive_multiply (Z.to_nat N) G_xshift) = false /\
  point_multiply N G_xshift <> naive_multiply (Z.to_nat N) G_xshift.
Proof.
  pose proof point_multiply_N_xshift as E.
  split; [by_computation|]. split; [by_computation|]. split; [exact E|].
  split; [exact naive_xshift_N_raises|].
  intros H. pose proof naive_xshift_N_raises as R. rewrite <- H, E in R.
  discriminate.
Qed.
